(** * Verification of [interfaces/sourcegen/sourcegen/_helpers.py]

    The module holds two helpers of Cantera's source generator:
    [normalize_indent], which dedents a block of generated text and aligns
    it with the line of the calling statement, and [get_preamble], which
    reads the text file [preamble.txt] stored beside the module.

    Python strings are sequences of Unicode code points and are embedded as
    [list N].  The standard-library functions the module calls
    ([str.strip], [str.lstrip], [str.isspace], [str.splitlines],
    [textwrap.dedent], [textwrap.indent], [inspect.stack],
    [pathlib.Path.read_text]) are embedded from their CPython definitions;
    the two functions of the module are embedded statement by statement on
    top of them, with the interpreter state they read (the call stack and
    the file system) threaded through a small state-and-exception monad. *)

From Stdlib Require Import NArith List Bool Lia Ascii String.
From Stdlib Require Strings.Byte.
From stdpp Require Import base option list strings gmap.

Local Open Scope N_scope.
Local Open Scope list_scope.

(** ** Strings *)

Abbreviation char := N (only parsing).
Abbreviation str := (list N) (only parsing).

(** Code points of the characters the module and its tests mention. *)
Definition TAB : char := 9.
Definition LF : char := 10.
Definition CR : char := 13.
Definition SPACE : char := 32.
Definition LBRACE : char := 123.

(** A literal: the code points of an ASCII string. *)
Fixpoint py (s : string) : str :=
  match s with
  | EmptyString => []
  | String a s' => N_of_ascii a :: py s'
  end.

(** [Py_UNICODE_ISSPACE]: the characters [str.isspace], [str.strip] and
    [str.lstrip] treat as whitespace. *)
Definition isspace_char (c : char) : bool :=
  ((9 <=? c) && (c <=? 13)) || ((28 <=? c) && (c <=? 31)) || (c =? 32)
  || (c =? 0x85) || (c =? 0xA0) || (c =? 0x1680)
  || ((0x2000 <=? c) && (c <=? 0x200A))
  || (c =? 0x2028) || (c =? 0x2029) || (c =? 0x202F) || (c =? 0x205F)
  || (c =? 0x3000).

(** [Py_UNICODE_ISLINEBREAK]: the line boundaries of [str.splitlines]. *)
Definition is_linebreak (c : char) : bool :=
  ((10 <=? c) && (c <=? 13)) || ((28 <=? c) && (c <=? 30))
  || (c =? 0x85) || (c =? 0x2028) || (c =? 0x2029).

(** [s.isspace()]: at least one character, and all of them whitespace. *)
Definition isspace (s : str) : bool :=
  match s with
  | [] => false
  | _ => forallb isspace_char s
  end.

(** [s.lstrip()] *)
Fixpoint lstrip (s : str) : str :=
  match s with
  | [] => []
  | c :: s' => if isspace_char c then lstrip s' else s
  end.

(** [s.rstrip()] *)
Definition rstrip (s : str) : str := reverse (lstrip (reverse s)).

(** [s.strip()] *)
Definition strip (s : str) : str := rstrip (lstrip s).

(** [s.startswith(p)] *)
Fixpoint startswith (s p : str) {struct p} : bool :=
  match p, s with
  | [], _ => true
  | y :: p', x :: s' => (x =? y) && startswith s' p'
  | _ :: _, [] => false
  end.

(** [s.split('\n')]: never empty, the last piece is what follows the last
    newline. *)
Fixpoint split_nl (s : str) : list str :=
  match s with
  | [] => [[]]
  | c :: s' =>
      if c =? LF then [] :: split_nl s'
      else match split_nl s' with
           | l :: ls => (c :: l) :: ls
           | [] => [[c]]
           end
  end.

(** ['\n'.join(ls)] *)
Fixpoint join_nl (ls : list str) : str :=
  match ls with
  | [] => []
  | [l] => l
  | l :: ls' => l ++ LF :: join_nl ls'
  end.

(** [s.splitlines(keepends=True)]: the text cut after every line boundary,
    [\r\n] counting as one; no piece is empty. *)
Fixpoint splitlines (s : str) : list str :=
  match s with
  | [] => []
  | c :: s' =>
      if is_linebreak c then
        match s' with
        | d :: s'' =>
            if (c =? CR) && (d =? LF) then [c; d] :: splitlines s''
            else [c] :: splitlines s'
        | [] => [[c]]
        end
      else match splitlines s' with
           | l :: ls => (c :: l) :: ls
           | [] => [[c]]
           end
  end.

(** ** [textwrap] *)

(** The character class [[ \t]] of the two regular expressions of
    [textwrap]. *)
Definition is_space_or_tab (c : char) : bool := (c =? SPACE) || (c =? TAB).

(** A line that [_whitespace_only_re], the expression "^[ \t]+$" in
    multi-line mode, matches: one or more spaces and tabs, nothing else. *)
Definition whitespace_only (l : str) : bool :=
  match l with
  | [] => false
  | _ => forallb is_space_or_tab l
  end.

(** [_whitespace_only_re.sub('', text)], line by line. *)
Definition blank_whitespace_only (l : str) : str :=
  if whitespace_only l then [] else l.

(** The greedy group of [_leading_whitespace_re]: the spaces and tabs a line
    starts with. *)
Fixpoint leading_whitespace (l : str) : str :=
  match l with
  | c :: l' => if is_space_or_tab c then c :: leading_whitespace l' else []
  | [] => []
  end.

(** [_leading_whitespace_re] (multi-line mode) captures the spaces and tabs
    at the start of a line and requires a character other than space, tab
    and newline after them: it matches a line exactly when the line holds
    such a character, and [findall] yields the captured group. *)
Definition line_indent (l : str) : option str :=
  if forallb is_space_or_tab l then None else Some (leading_whitespace l).

(** The loop [for i, (x, y) in enumerate(zip(margin, indent))] of [dedent]:
    the position of the first pair that differs, if any. *)
Fixpoint first_mismatch (margin indent : str) (i : nat) : option nat :=
  match margin, indent with
  | x :: margin', y :: indent' =>
      if x =? y then first_mismatch margin' indent' (S i) else Some i
  | _, _ => None
  end.

(** One turn of the loop [for indent in indents] of [dedent]. *)
Definition margin_step (margin : option str) (indent : str) : option str :=
  match margin with
  | None => Some indent
  | Some m =>
      if startswith indent m then Some m
      else if startswith m indent then Some indent
      else match first_mismatch m indent 0 with
           | Some i => Some (take i m)
           | None => Some m
           end
  end.

(** [re.sub(r'(?m)^' + margin, '', text)], line by line. *)
Definition remove_margin (margin l : str) : str :=
  if startswith l margin then drop (length margin) l else l.

(** [textwrap.dedent(text)] (the regular-expression implementation of
    CPython up to 3.13).  Both expressions are anchored at line starts in
    multi-line mode and never match across a newline, so that their effect is
    given on the pieces of [text.split('\n')]. *)
Definition dedent (text : str) : str :=
  let lines := map blank_whitespace_only (split_nl text) in
  let indents := omap line_indent lines in
  let margin := foldl margin_step None indents in
  match margin with
  | Some (c :: m) => join_nl (map (remove_margin (c :: m)) lines)
  | _ => join_nl lines
  end.

(** [textwrap.indent(text, prefix)] with the default predicate: the prefix
    goes before every line that does not consist solely of whitespace. *)
Definition indent_line (prefix line : str) : str :=
  if negb (isspace line) then prefix ++ line else line.

Definition textwrap_indent (text prefix : str) : str :=
  concat (map (indent_line prefix) (splitlines text)).

(** ** Interpreter state, exceptions, and the monad of the module *)

Inductive exn : Type :=
  | IndexError
  | TypeError
  | FileNotFoundError
  | NotADirectoryError
  | IsADirectoryError
  | PermissionError
  | UnicodeDecodeError.

Inductive result (A : Type) : Type :=
  | Ok (a : A)
  | Raise (e : exn).
Arguments Ok {A} a.
Arguments Raise {A} e.

(** A frame record of [inspect.stack()]; only [code_context] is read: the
    source lines around the frame's current line, or [None] when the source
    is not available. *)
Record FrameInfo : Type := { code_context : option (list str) }.

(** A path: the components below the anchor. *)
Abbreviation Path := (list string) (only parsing).

(** What a path leads to: a regular file the process can read, a directory
    it can search, or an entry it is denied (a file it may not read, a
    directory it may not search). *)
Inductive node : Type :=
  | File (content : list Byte.byte)
  | Dir
  | Denied.

(** What the module reads of the interpreter and of the machine:
    - [stack]: what [inspect.stack()] returns inside the running function,
      the function's own frame first and its caller's second;
    - [dunder_file]: the module's [__file__];
    - [fs]: the file system, from the paths that lead somewhere to what they
      lead to; a file system maps a path only below directories;
    - [locale_decode]: the codec [open] uses in text mode when it is given no
      encoding (the locale's), [None] on bytes it cannot decode. *)
Record World : Type := {
  stack : list FrameInfo;
  dunder_file : list string;
  fs : gmap (list string) node;
  locale_decode : list Byte.byte -> option (list N)
}.

Definition M (A : Type) : Type := World -> result A * World.

#[global] Instance M_ret : MRet M := fun A a w => (Ok a, w).
#[global] Instance M_bind : MBind M := fun A B f m w =>
  match m w with
  | (Ok a, w') => f a w'
  | (Raise e, w') => (Raise e, w')
  end.

Definition raise {A : Type} (e : exn) : M A := fun w => (Raise e, w).
Definition gets {A : Type} (f : World -> A) : M A := fun w => (Ok (f w), w).

(** [l[i]] for [0 <= i]. *)
Definition getitem {A : Type} (l : list A) (i : nat) : M A :=
  match l !! i with
  | Some x => mret x
  | None => raise IndexError
  end.

(** Subscripting a value that may be [None]. *)
Definition subscriptable {A : Type} (o : option A) : M A :=
  match o with
  | Some x => mret x
  | None => raise TypeError
  end.

(** ** [pathlib] *)

(** [p.parent] *)
Definition parent (p : list string) : list string := removelast p.

(** [p.joinpath(name)] for a relative one-component [name]. *)
Definition joinpath (p : list string) (name : string) : list string := p ++ [name].

(** Universal newlines, the translation of [open] in text mode with
    [newline=None]: [\r\n] and a lone [\r] are read as [\n]. *)
Fixpoint universal_newlines (s : str) : str :=
  match s with
  | [] => []
  | c :: s' =>
      if c =? CR then
        LF :: match s' with
              | d :: s'' =>
                  if d =? LF then universal_newlines s''
                  else universal_newlines s'
              | [] => []
              end
      else c :: universal_newlines s'
  end.

(** The proper ancestors of a path, from the top: [a] and [a/b] for
    [a/b/c]. *)
Definition ancestors (p : list string) : list (list string) :=
  map (fun n => take n p) (seq 1 (length p - 1)).

(** What an ancestor does to [open] on the way down: nothing when it is a
    directory, [ENOTDIR] when it is a regular file, [EACCES] when it may not
    be searched, [ENOENT] when it is absent. *)
Definition obstacle (found : option node) : option exn :=
  match found with
  | Some Dir => None
  | Some (File _) => Some NotADirectoryError
  | Some Denied => Some PermissionError
  | None => Some FileNotFoundError
  end.

(** The first ancestor that stops [open], if any. *)
Fixpoint first_obstacle (files : gmap (list string) node)
    (qs : list (list string)) : option exn :=
  match qs with
  | [] => None
  | q :: qs' =>
      match obstacle (files !! q) with
      | Some e => Some e
      | None => first_obstacle files qs'
      end
  end.

(** The error of [open] for a path that leads nowhere: the one of the first
    ancestor in the way, and [ENOENT] for the last component when all
    ancestors are in place. *)
Definition open_error (files : gmap (list string) node) (p : list string) : exn :=
  default FileNotFoundError (first_obstacle files (ancestors p)).

(** [p.read_text()]: [open(p, 'r')] and [read()]. *)
Definition read_text (p : list string) : M str := fun w =>
  match fs w !! p with
  | None => (Raise (open_error (fs w) p), w)
  | Some Dir => (Raise IsADirectoryError, w)
  | Some Denied => (Raise PermissionError, w)
  | Some (File bytes) =>
      match locale_decode w bytes with
      | Some text => (Ok (universal_newlines text), w)
      | None => (Raise UnicodeDecodeError, w)
      end
  end.

(** ** The module *)

Definition normalize_indent (code : str) : M str :=
  let code := strip (dedent code) in
  let indent := 0%nat in
  stk ← gets stack;
  frame ← getitem stk 1;
  context ← subscriptable (code_context frame);
  call_line ← getitem context 0;
  let indent := (length call_line - length (lstrip call_line))%nat in
  c ← getitem call_line indent;
  if c =? LBRACE then
    let code := textwrap_indent code (replicate indent SPACE) in
    let code := drop indent code in
    mret code
  else
    mret code.

Definition get_preamble : M str :=
  file ← gets dunder_file;
  read_text (joinpath (parent file) "preamble.txt").

(** ** Vocabulary of the statements *)

(** The column of the first non-whitespace character of a line, as
    [normalize_indent] computes it. *)
Definition indent_of (line : str) : nat :=
  (length line - length (lstrip line))%nat.

(** [normalize_indent] runs in [w] as called from the statement whose source
    line is [call_line]. *)
Definition called_from (w : World) (call_line : str) : Prop :=
  exists own caller rest more,
    stack w = own :: caller :: rest /\
    code_context caller = Some (call_line :: more).

(** The path [get_preamble] reads. *)
Definition preamble_path (w : World) : list string :=
  joinpath (parent (dunder_file w)) "preamble.txt".

(** A line [textwrap.dedent] treats as blank: spaces and tabs only. *)
Definition blank (l : str) : bool := forallb is_space_or_tab l.

(** What [textwrap.dedent] does to one line, given the margin. *)
Definition dedent_line (margin l : str) : str :=
  if blank l then [] else drop (length margin) l.

(** [margin] is the minimal common leading whitespace of [text]: spaces and
    tabs that start every line that is not blank, and as long as possible
    when there is such a line. *)
Definition common_margin (text margin : str) : Prop :=
  Forall (fun c => is_space_or_tab c = true) margin /\
  (forall l, l ∈ split_nl text -> blank l = false -> margin `prefix_of` l) /\
  (forall p,
      Forall (fun c => is_space_or_tab c = true) p ->
      (exists l, l ∈ split_nl text /\ blank l = false) ->
      (forall l, l ∈ split_nl text -> blank l = false -> p `prefix_of` l) ->
      p `prefix_of` margin).

(** The re-indentation in the words of the specification: [n] spaces before
    every line. *)
Definition indent_every_line (n : nat) (text : str) : str :=
  concat (map (fun l => replicate n SPACE ++ l) (splitlines text)).

(** A world for the examples: [normalize_indent] called from [line], the
    module stored in the directory [sourcegen] with the given files, and
    Latin-1 as the locale's codec. *)
Definition latin1 (bytes : list Byte.byte) : option (list N) :=
  Some (map Byte.to_N bytes).

Definition example_world (line : str) (files : gmap (list string) node) : World :=
  {| stack := [ {| code_context := None |};
                {| code_context := Some [line] |} ];
     dunder_file := ["sourcegen"; "_helpers.py"]%string;
     fs := files;
     locale_decode := latin1 |}.

(** ** Blocks, call sites and worlds of the examples *)

(** The block of the specification's scenario. *)
Definition block_def_f : str := py "def f():" ++ [LF] ++ py "    pass".

(** Two call sites at column 4: a plain statement, and an interpolation
    inside an f-string. *)
Definition plain_call : str := py "    text = normalize_indent(block)" ++ [LF].
Definition interpolated_call : str := py "    {normalize_indent(block)}" ++ [LF].

(** The blocks on which the round trip fails: an inner line of one space,
    and a space at the end of the only line. *)
Definition block_inner_blank : str := py "a" ++ [LF] ++ py " " ++ [LF] ++ py "b".
Definition block_trailing_space : str := py "a ".

(** A call site at column 0. *)
Definition toplevel_call : str := py "text = normalize_indent(block)" ++ [LF].

(** Already minimally indented, in the words of the specification: the common
    leading whitespace is empty, and neither the first nor the last line is
    blank. *)
Definition minimally_indented (code : str) : Prop :=
  common_margin code [] /\
  (forall l, head (split_nl code) = Some l -> blank l = false) /\
  (forall l, last (split_nl code) = Some l -> blank l = false).

(** A preamble file with Windows line ends, the bytes of ["a\r\nb"], beside
    the module of the example world. *)
Definition crlf_bytes : list Byte.byte := [Byte.x61; Byte.x0d; Byte.x0a; Byte.x62].

Definition crlf_files : gmap (list string) node :=
  {[ ["sourcegen"; "preamble.txt"]%string := File crlf_bytes ]}.

(** A preamble file with Unix line ends, the bytes of ["a\nb"]. *)
Definition lf_bytes : list Byte.byte := [Byte.x61; Byte.x0a; Byte.x62].

Definition lf_files : gmap (list string) node :=
  {[ ["sourcegen"; "preamble.txt"]%string := File lf_bytes ]}.

(** A second world for the same call and the same preamble: more frames
    below the caller, another file beside the preamble. *)
Definition other_world : World :=
  {| stack := [ {| code_context := None |};
                {| code_context := Some [interpolated_call] |};
                {| code_context := Some [toplevel_call] |} ];
     dunder_file := ["sourcegen"; "_helpers.py"]%string;
     fs := <[ ["sourcegen"; "notes.txt"]%string := File crlf_bytes ]> lf_files;
     locale_decode := latin1 |}.

(** ** More vocabulary *)

(** A file system maps a path only below directories. *)
Definition well_formed (files : gmap (list string) node) : Prop :=
  forall p found, files !! p = Some found ->
    Forall (fun q => files !! q = Some Dir) (ancestors p).

(** [open] as the kernel resolves a path: down from the top, through the
    ancestors first. *)
Definition open_top_down (files : gmap (list string) node) (p : list string)
    : result node :=
  match first_obstacle files (ancestors p) with
  | Some e => Raise e
  | None =>
      match files !! p with
      | Some found => Ok found
      | None => Raise FileNotFoundError
      end
  end.


(** The strict ASCII codec: no byte above 127. *)
Definition ascii_strict (bytes : list Byte.byte) : option str :=
  if forallb (fun b => Byte.to_N b <? 128) bytes
  then Some (map Byte.to_N bytes) else None.

(** A preamble of one byte, 0xE9. *)
Definition accent_bytes : list Byte.byte := [Byte.xe9].

Definition accent_files : gmap (list string) node :=
  {[ ["sourcegen"; "preamble.txt"]%string := File accent_bytes ]}.

(** The example world under the ASCII locale. *)
Definition ascii_world (line : str) (files : gmap (list string) node) : World :=
  {| stack := [ {| code_context := None |};
                {| code_context := Some [line] |} ];
     dunder_file := ["sourcegen"; "_helpers.py"]%string;
     fs := files;
     locale_decode := ascii_strict |}.


(** The characters of a text that are not whitespace, in their order. *)
Definition non_whitespace (s : str) : str :=
  List.filter (fun c => negb (isspace_char c)) s.

(** A block moved to the right: the spaces and tabs [p] before every line
    of the text, or before every line that is not blank. *)
Definition shift_line (p : str) (also_blank : bool) (l : str) : str :=
  if blank l && negb also_blank then l else p ++ l.

Definition shift_block (p : str) (also_blank : bool) (text : str) : str :=
  join_nl (map (shift_line p also_blank) (split_nl text)).

(** The same text with Windows line ends: [\r\n] for every [\n]. *)
Fixpoint to_crlf (s : str) : str :=
  match s with
  | [] => []
  | c :: s' => if c =? LF then CR :: LF :: to_crlf s' else c :: to_crlf s'
  end.

(** A block as a triple-quoted literal gives it: an empty first line, two
    lines at depth 4, and the indentation of the closing quotes. *)
Definition block_literal : str :=
  [LF] ++ py "    a" ++ [LF] ++ py "      b" ++ [LF] ++ py "    ".

(** A block of whitespace only. *)
Definition block_spaces : str := [LF] ++ py "   " ++ [TAB; LF].

(** ** Whitespace and stripping *)

Lemma linebreak_isspace (c : char) :
  is_linebreak c = true -> isspace_char c = true.
Proof.
  unfold is_linebreak, isspace_char.
  rewrite !orb_true_iff, !andb_true_iff, !N.leb_le, !N.eqb_eq. lia.
Qed.

Lemma space_or_tab_isspace (c : char) :
  is_space_or_tab c = true -> isspace_char c = true.
Proof.
  unfold is_space_or_tab, isspace_char, SPACE, TAB.
  rewrite !orb_true_iff, !andb_true_iff, !N.leb_le, !N.eqb_eq. lia.
Qed.

Lemma lstrip_split (s : str) :
  exists ws, s = ws ++ lstrip s /\ forallb isspace_char ws = true.
Proof.
  induction s as [|c s [ws [Hs Hws]]]; simpl.
  - exists []. done.
  - destruct (isspace_char c) eqn:Hc.
    + exists (c :: ws). simpl. rewrite Hc, Hws. split; [congruence | done].
    + exists []. done.
Qed.

Lemma lstrip_head (s : str) (c : char) :
  head (lstrip s) = Some c -> isspace_char c = false.
Proof.
  induction s as [|d s IH]; simpl; [done |].
  destruct (isspace_char d) eqn:Hd; [done |].
  simpl. congruence.
Qed.

Lemma lstrip_id (s : str) :
  (forall c, head s = Some c -> isspace_char c = false) -> lstrip s = s.
Proof.
  destruct s as [|c s]; simpl; [done |].
  intros H. by rewrite (H c eq_refl).
Qed.

Lemma lstrip_nil (s : str) :
  lstrip s = [] <-> forall c, c ∈ s -> isspace_char c = true.
Proof.
  induction s as [|d s IH]; simpl.
  - split; [intros _ c Hc; by apply elem_of_nil in Hc | done].
  - destruct (isspace_char d) eqn:Hd.
    + rewrite IH. split.
      * intros H c Hc. apply elem_of_cons in Hc as [-> | Hc]; auto.
      * intros H c Hc. apply H. by right.
    + split; [done |]. intros H. rewrite H in Hd; [done | by left].
Qed.

Lemma lookup_indent_of (s : str) : s !! indent_of s = head (lstrip s).
Proof.
  unfold indent_of. destruct (lstrip_split s) as [ws [Hs _]].
  remember (lstrip s) as t eqn:Ht. clear Ht. subst s.
  rewrite length_app.
  replace (length ws + length t - length t)%nat with (length ws + 0)%nat by lia.
  rewrite lookup_app_r by lia.
  replace (length ws + 0 - length ws)%nat with 0%nat by lia.
  by destruct t.
Qed.

Lemma indent_of_nonblank (s : str) :
  (exists c, c ∈ s /\ isspace_char c = false) ->
  exists c, s !! indent_of s = Some c /\ isspace_char c = false.
Proof.
  intros [c [Hin Hc]]. rewrite lookup_indent_of.
  destruct (lstrip s) as [|d t] eqn:Hl.
  - rewrite (proj1 (lstrip_nil s) Hl c Hin) in Hc. done.
  - exists d. split; [done |]. apply (lstrip_head s). by rewrite Hl.
Qed.

Lemma indent_of_blank (s : str) :
  (forall c, c ∈ s -> isspace_char c = true) -> s !! indent_of s = None.
Proof.
  intros H. rewrite lookup_indent_of. by rewrite (proj2 (lstrip_nil s) H).
Qed.

Lemma strip_head (s : str) (c : char) :
  head (strip s) = Some c -> isspace_char c = false.
Proof.
  unfold strip, rstrip. set (t := lstrip s).
  destruct (lstrip_split (reverse t)) as [ws [Hrev Hws]].
  rewrite head_reverse. intros Hlast.
  assert (Hc : last (reverse t) = Some c).
  { rewrite Hrev. destruct (lstrip (reverse t)) as [|x u] eqn:Hu; [done |].
    by rewrite last_app_cons. }
  rewrite last_reverse in Hc. by apply (lstrip_head s).
Qed.

Lemma strip_last (s : str) (c : char) :
  last (strip s) = Some c -> isspace_char c = false.
Proof.
  unfold strip, rstrip. rewrite last_reverse. apply lstrip_head.
Qed.

Lemma strip_id (s : str) :
  (forall c, head s = Some c -> isspace_char c = false) ->
  (forall c, last s = Some c -> isspace_char c = false) ->
  strip s = s.
Proof.
  intros Hh Hl. unfold strip, rstrip. rewrite (lstrip_id s Hh).
  rewrite lstrip_id; [apply reverse_involutive |].
  intros c. rewrite head_reverse. apply Hl.
Qed.

(** ** Lines *)

Lemma splitlines_unfold (c : char) (s : str) :
  splitlines (c :: s) =
    if is_linebreak c then
      match s with
      | d :: s'' =>
          if (c =? CR) && (d =? LF) then [c; d] :: splitlines s''
          else [c] :: splitlines s
      | [] => [[c]]
      end
    else match splitlines s with
         | l :: ls => (c :: l) :: ls
         | [] => [[c]]
         end.
Proof. by destruct s. Qed.

Lemma concat_splitlines (s : str) : concat (splitlines s) = s.
Proof.
  assert (H : forall n (s : str), (length s < n)%nat -> concat (splitlines s) = s).
  { clear s. induction n as [|n IH]; intros s Hn; [lia |].
    destruct s as [|c s]; [done |]. simpl in Hn. rewrite splitlines_unfold.
    destruct (is_linebreak c).
    - destruct s as [|d s]; [done |]. simpl in Hn.
      destruct ((c =? CR) && (d =? LF)).
      + change (c :: d :: concat (splitlines s) = c :: d :: s).
        f_equal. f_equal. apply IH. lia.
      + change (c :: concat (splitlines (d :: s)) = c :: d :: s).
        f_equal. apply IH. simpl. lia.
    - specialize (IH s ltac:(lia)).
      destruct (splitlines s) as [|l ls]; simpl in *; congruence. }
  apply (H (S (length s))). lia.
Qed.

Lemma splitlines_nonempty (s : str) : Forall (fun l => l <> []) (splitlines s).
Proof.
  assert (H : forall n (s : str), (length s < n)%nat ->
              Forall (fun l => l <> []) (splitlines s)).
  { clear s. induction n as [|n IH]; intros s Hn; [lia |].
    destruct s as [|c s]; [constructor |]. simpl in Hn.
    rewrite splitlines_unfold.
    destruct (is_linebreak c).
    - destruct s as [|d s]; [by repeat constructor |]. simpl in Hn.
      destruct ((c =? CR) && (d =? LF)); constructor; try done.
      + apply IH. lia.
      + apply IH. simpl. lia.
    - specialize (IH s ltac:(lia)).
      destruct (splitlines s) as [|l ls]; [by repeat constructor |].
      inversion IH; subst. by constructor. }
  apply (H (S (length s))). lia.
Qed.

Lemma splitlines_cons (c : char) (s : str) :
  is_linebreak c = false -> exists l ls, splitlines (c :: s) = (c :: l) :: ls.
Proof.
  intros Hc. rewrite splitlines_unfold, Hc.
  destruct (splitlines s) as [|l ls]; eauto.
Qed.

(** The first line of a text that starts with a character other than
    whitespace is not blank. *)
Lemma splitlines_first (s first : str) (others : list str) :
  (forall c, head s = Some c -> isspace_char c = false) ->
  splitlines s = first :: others -> isspace first = false.
Proof.
  intros Hs Hsplit. destruct s as [|c s]; [done |].
  specialize (Hs c eq_refl).
  destruct (splitlines_cons c s) as [l [ls Hl]].
  { destruct (is_linebreak c) eqn:Hb; [| done].
    apply linebreak_isspace in Hb. congruence. }
  rewrite Hl in Hsplit. injection Hsplit as <- <-.
  simpl. by rewrite Hs.
Qed.

(** ** [textwrap.indent] *)

Lemma indent_line_nil (l : str) : indent_line [] l = l.
Proof. unfold indent_line. by destruct (negb (isspace l)). Qed.

Lemma textwrap_indent_nil (text : str) : textwrap_indent text [] = text.
Proof.
  unfold textwrap_indent.
  rewrite (map_ext _ id) by apply indent_line_nil.
  rewrite map_id. apply concat_splitlines.
Qed.

Lemma textwrap_indent_first (text prefix first : str) (others : list str) :
  (forall c, head text = Some c -> isspace_char c = false) ->
  splitlines text = first :: others ->
  textwrap_indent text prefix =
    prefix ++ first ++ concat (map (indent_line prefix) others).
Proof.
  intros Hh Hs. unfold textwrap_indent. rewrite Hs. simpl.
  unfold indent_line at 1.
  rewrite (splitlines_first text first others Hh Hs). simpl.
  by rewrite <- app_assoc.
Qed.

Lemma drop_replicate_app (n : nat) (c : char) (s : str) :
  drop n (replicate n c ++ s) = s.
Proof.
  rewrite drop_app_length'; [done | by rewrite length_replicate].
Qed.

Lemma last_indent_line (prefix l : str) :
  l <> [] -> last (indent_line prefix l) = last l.
Proof.
  intros Hl. unfold indent_line. destruct (negb (isspace l)); [| done].
  destruct l as [|x l]; [done |]. by rewrite !last_app_cons.
Qed.

Lemma last_concat_indent (prefix : str) (ls : list str) (start : str) :
  Forall (fun l => l <> []) ls ->
  last (start ++ concat (map (indent_line prefix) ls)) = last (start ++ concat ls).
Proof.
  intros H. revert start. induction H as [|l ls Hl Hls IH]; intros start; [done |].
  simpl. rewrite !app_assoc. rewrite IH.
  destruct ls as [|l' ls'].
  - simpl. rewrite !app_nil_r.
    destruct l as [|x l]; [done |].
    rewrite last_app_cons.
    pose proof (last_indent_line prefix (x :: l) Hl) as Hi.
    destruct (indent_line prefix (x :: l)) as [|y t] eqn:Hy.
    + simpl in Hi. rewrite last_cons in Hi. by destruct (last l).
    + rewrite last_app_cons. done.
  - inversion Hls; subst.
    assert (Hne : concat (l' :: ls') <> []).
    { simpl. destruct l'; [done | discriminate]. }
    destruct (concat (l' :: ls')) as [|z u]; [done |].
    by rewrite !last_app_cons.
Qed.

(** ** Running [normalize_indent] *)

(** The outcome of [normalize_indent] in terms of the caller's line. *)
Lemma normalize_indent_run (w : World) (code call_line : str) :
  called_from w call_line ->
  normalize_indent code w =
    match call_line !! indent_of call_line with
    | Some c =>
        if c =? LBRACE
        then (Ok (drop (indent_of call_line)
                    (textwrap_indent (strip (dedent code))
                       (replicate (indent_of call_line) SPACE))), w)
        else (Ok (strip (dedent code)), w)
    | None => (Raise IndexError, w)
    end.
Proof.
  intros (own & caller & rest & more & Hstack & Hctx).
  unfold normalize_indent, mbind, M_bind, gets, getitem, subscriptable.
  rewrite Hstack. simpl. rewrite Hctx. simpl.
  fold (indent_of call_line).
  destruct (call_line !! indent_of call_line) as [c|]; simpl; [| done].
  by destruct (c =? LBRACE).
Qed.

(** A returned value means that the caller's line was there to be read. *)
Lemma normalize_indent_returns (w : World) (code s : str) :
  fst (normalize_indent code w) = Ok s ->
  exists call_line, called_from w call_line.
Proof.
  unfold normalize_indent, mbind, M_bind, gets, getitem, subscriptable.
  destruct w as [stk file files dec]. simpl.
  destruct stk as [|own [|[ctx] rest]]; simpl; try done.
  destruct ctx as [[|call_line more]|]; simpl; try done.
  intros _. exists call_line. by exists own, {| code_context := Some (call_line :: more) |}, rest, more.
Qed.

(** [normalize_indent] leaves the world as it found it. *)
Lemma normalize_indent_world (w : World) (code : str) :
  snd (normalize_indent code w) = w.
Proof.
  unfold normalize_indent, mbind, M_bind, gets, getitem, subscriptable.
  destruct (stack w) as [|own [|[ctx] rest]]; simpl; try done.
  destruct ctx as [[|call_line more]|]; simpl; try done.
  destruct (call_line !! _) as [c|]; simpl; [| done].
  by destruct (c =? LBRACE).
Qed.

(** ** Running [get_preamble] *)

Lemma get_preamble_run (w : World) :
  get_preamble w =
    match fs w !! preamble_path w with
    | None => (Raise (open_error (fs w) (preamble_path w)), w)
    | Some Dir => (Raise IsADirectoryError, w)
    | Some Denied => (Raise PermissionError, w)
    | Some (File bytes) =>
        match locale_decode w bytes with
        | Some text => (Ok (universal_newlines text), w)
        | None => (Raise UnicodeDecodeError, w)
        end
    end.
Proof. reflexivity. Qed.

Lemma universal_newlines_id (s : str) : CR ∉ s -> universal_newlines s = s.
Proof.
  induction s as [|c s IH]; [done |]. intros Hnot.
  apply not_elem_of_cons in Hnot as [Hc Hs]. simpl.
  destruct (c =? CR) eqn:E; [apply N.eqb_eq in E; congruence |].
  by rewrite IH.
Qed.

(** ** [textwrap.dedent] *)

Lemma split_nl_nonempty (s : str) : split_nl s <> [].
Proof.
  destruct s as [|c s]; simpl; [done |].
  destruct (c =? LF); [done |]. by destruct (split_nl s).
Qed.

Lemma join_split_nl (s : str) : join_nl (split_nl s) = s.
Proof.
  induction s as [|c s IH]; [done |]. simpl.
  pose proof (split_nl_nonempty s) as Hne.
  destruct (split_nl s) as [|l ls]; [done |].
  destruct (c =? LF) eqn:E.
  - apply N.eqb_eq in E. subst c.
    change (join_nl ([] :: l :: ls)) with (LF :: join_nl (l :: ls)).
    by rewrite IH.
  - destruct ls as [|l' ls'].
    + simpl in *. by rewrite IH.
    + change (join_nl ((c :: l) :: l' :: ls'))
        with (c :: join_nl (l :: l' :: ls')).
      by rewrite IH.
Qed.

Lemma startswith_prefix (s p : str) : startswith s p = true <-> p `prefix_of` s.
Proof.
  revert s. induction p as [|y p IH]; intros s; simpl.
  - split; [intros _; apply prefix_nil | done].
  - destruct s as [|x s].
    + split; [done |]. intros H. by apply prefix_nil_inv in H.
    + rewrite andb_true_iff, N.eqb_eq, IH. split.
      * intros [-> H]. by apply prefix_cons.
      * intros H. split.
        -- symmetry. by apply prefix_cons_inv_1 in H.
        -- by apply prefix_cons_inv_2 in H.
Qed.

(** The loop that looks for the first difference cuts [margin] to the
    longest prefix it shares with [indent]. *)
Lemma first_mismatch_glb (margin indent : str) (i : nat) :
  match first_mismatch margin indent i with
  | Some j =>
      exists n, j = (i + n)%nat /\
        take n margin `prefix_of` indent /\
        (forall p, p `prefix_of` margin -> p `prefix_of` indent ->
                   p `prefix_of` take n margin)
  | None => margin `prefix_of` indent \/ indent `prefix_of` margin
  end.
Proof.
  revert indent i. induction margin as [|x m IH]; intros indent i; simpl.
  - left. apply prefix_nil.
  - destruct indent as [|y t]; [right; apply prefix_nil |].
    destruct (x =? y) eqn:E.
    + apply N.eqb_eq in E. subst y. specialize (IH t (S i)).
      destruct (first_mismatch m t (S i)) as [j|].
      * destruct IH as (n & -> & Hpre & Hmax).
        exists (S n). split; [lia |]. split; [by apply prefix_cons |].
        intros [|z p] Hm Ht; [apply prefix_nil |].
        pose proof (prefix_cons_inv_1 _ _ _ _ Hm) as ->.
        apply prefix_cons, Hmax; by eapply prefix_cons_inv_2.
      * destruct IH as [H | H]; [left | right]; by apply prefix_cons.
    + apply N.eqb_neq in E. exists 0%nat. split; [lia |].
      split; [apply prefix_nil |].
      intros [|z p] Hm Ht; [apply prefix_nil |].
      pose proof (prefix_cons_inv_1 _ _ _ _ Hm).
      pose proof (prefix_cons_inv_1 _ _ _ _ Ht). congruence.
Qed.

(** One turn of the loop keeps the longest common prefix of the margin so
    far and the next indentation. *)
Lemma margin_step_glb (m indent : str) :
  exists m', margin_step (Some m) indent = Some m' /\
    m' `prefix_of` m /\ m' `prefix_of` indent /\
    (forall p, p `prefix_of` m -> p `prefix_of` indent -> p `prefix_of` m').
Proof.
  unfold margin_step.
  destruct (startswith indent m) eqn:E1.
  { apply startswith_prefix in E1. exists m. by repeat split. }
  destruct (startswith m indent) eqn:E2.
  { apply startswith_prefix in E2. exists indent. by repeat split. }
  pose proof (first_mismatch_glb m indent 0) as H.
  destruct (first_mismatch m indent 0) as [j|].
  - destruct H as (n & -> & Hpre & Hmax). exists (take n m).
    repeat split; [apply prefix_take | done | done].
  - destruct H as [H | H]; apply startswith_prefix in H; congruence.
Qed.

Lemma margin_fold (m : str) (indents : list str) :
  exists m', foldl margin_step (Some m) indents = Some m' /\
    m' `prefix_of` m /\ Forall (prefix m') indents /\
    (forall p, p `prefix_of` m -> Forall (prefix p) indents -> p `prefix_of` m').
Proof.
  revert m. induction indents as [|i rest IH]; intros m; cbn [foldl].
  - exists m. by repeat split.
  - destruct (margin_step_glb m i) as (m1 & -> & Hm & Hi & Hmax).
    destruct (IH m1) as (m' & -> & Hm1 & Hall & Hmax').
    exists m'. repeat split.
    + by etrans.
    + constructor; [by etrans | done].
    + intros p Hp Hps. inversion Hps; subst. apply Hmax'; auto.
Qed.

(** The margin [dedent] ends with: none when no line has an indentation to
    give, otherwise the longest prefix all indentations share. *)
Lemma margin_spec (indents : list str) :
  match foldl margin_step None indents with
  | None => indents = []
  | Some m =>
      indents <> [] /\ Forall (prefix m) indents /\
      (forall p, Forall (prefix p) indents -> p `prefix_of` m)
  end.
Proof.
  destruct indents as [|i rest]; cbn [foldl margin_step]; [done |].
  destruct (margin_fold i rest) as (m & -> & Hm & Hall & Hmax).
  repeat split; [done | by constructor |].
  intros p Hp. inversion Hp; subst. by apply Hmax.
Qed.

Lemma leading_whitespace_prefix (l : str) : leading_whitespace l `prefix_of` l.
Proof.
  induction l as [|c l IH]; simpl; [done |].
  destruct (is_space_or_tab c); [by apply prefix_cons | apply prefix_nil].
Qed.

Lemma leading_whitespace_spaces (l : str) :
  Forall (fun c => is_space_or_tab c = true) (leading_whitespace l).
Proof.
  induction l as [|c l IH]; simpl; [constructor |].
  destruct (is_space_or_tab c) eqn:E; by constructor.
Qed.

Lemma prefix_leading_whitespace (p l : str) :
  Forall (fun c => is_space_or_tab c = true) p ->
  p `prefix_of` l -> p `prefix_of` leading_whitespace l.
Proof.
  intros Hp. revert l. induction Hp as [|c p Hc _ IH]; intros l Hl.
  - apply prefix_nil.
  - destruct l as [|d l]; [by apply prefix_nil_inv in Hl |].
    pose proof (prefix_cons_inv_1 _ _ _ _ Hl) as <-.
    simpl. rewrite Hc. apply prefix_cons, IH. by eapply prefix_cons_inv_2.
Qed.

Lemma line_indent_blank (l : str) :
  line_indent l = if blank l then None else Some (leading_whitespace l).
Proof. reflexivity. Qed.

Lemma blank_whitespace_only_blank (l : str) :
  blank_whitespace_only l = if blank l then [] else l.
Proof.
  unfold blank_whitespace_only, whitespace_only, blank.
  destruct l as [|c l]; [done |]. by destruct (forallb _ _).
Qed.

Lemma indents_of_blanked (ls : list str) :
  omap line_indent (map blank_whitespace_only ls) = omap line_indent ls.
Proof.
  induction ls as [|l ls IH]; [done |]. unfold omap in *. simpl. rewrite IH.
  rewrite blank_whitespace_only_blank, !line_indent_blank.
  destruct (blank l) eqn:E; [done |]. by rewrite E.
Qed.

Lemma elem_of_indents (ls : list str) (i : str) :
  i ∈ omap line_indent ls <->
  exists l, l ∈ ls /\ blank l = false /\ i = leading_whitespace l.
Proof.
  rewrite list_elem_of_omap. split.
  - intros (l & Hl & Hi). exists l. rewrite line_indent_blank in Hi.
    destruct (blank l); [done |]. split; [done |]. split; congruence.
  - intros (l & Hl & Hb & ->). exists l. split; [done |].
    by rewrite line_indent_blank, Hb.
Qed.

(** [dedent] cuts the minimal common leading whitespace off the lines that
    are not blank and empties the blank ones. *)
Lemma dedent_spec (text : str) :
  exists margin,
    common_margin text margin /\
    dedent text = join_nl (map (dedent_line margin) (split_nl text)).
Proof.
  unfold dedent. rewrite indents_of_blanked.
  pose proof (margin_spec (omap line_indent (split_nl text))) as Hm.
  pose proof (elem_of_indents (split_nl text)) as Hin.
  set (indents := omap line_indent (split_nl text)) in *.
  assert (Hmax : forall m,
            (forall p, Forall (prefix p) indents -> p `prefix_of` m) ->
            forall p, Forall (fun c => is_space_or_tab c = true) p ->
              (forall l, l ∈ split_nl text -> blank l = false -> p `prefix_of` l) ->
              p `prefix_of` m).
  { intros m Hglb p Hp Hall. apply Hglb. apply Forall_forall.
    intros i Hi. apply Hin in Hi as (l & Hl & Hb & ->).
    apply prefix_leading_whitespace; auto. }
  assert (Hempty : forall m, m = [] \/ indents = [] ->
            map blank_whitespace_only (split_nl text) =
            map (dedent_line m) (split_nl text)).
  { intros m Hcase. apply map_ext_in. intros l Hl%list_elem_of_In.
    rewrite blank_whitespace_only_blank. unfold dedent_line.
    destruct (blank l) eqn:Hb; [done |].
    destruct Hcase as [-> | Hnil]; [done |].
    assert (Hi : leading_whitespace l ∈ indents) by (apply Hin; eauto).
    rewrite Hnil in Hi. by apply elem_of_nil in Hi. }
  destruct (foldl margin_step None indents) as [[|c m]|].
  - destruct Hm as (Hne & Hpre & Hglb). exists []. split.
    + split; [constructor |]. split; [intros; apply prefix_nil |].
      intros p Hp _. by apply Hmax.
    + f_equal. apply Hempty. by left.
  - destruct Hm as (Hne & Hpre & Hglb). exists (c :: m).
    assert (Hline : forall l, l ∈ split_nl text -> blank l = false ->
                      (c :: m) `prefix_of` l).
    { intros l Hl Hb. etrans; [| apply leading_whitespace_prefix].
      rewrite Forall_forall in Hpre. apply Hpre, Hin. eauto. }
    split.
    + split; [| split; [done |]].
      * destruct indents as [|i rest]; [done |].
        assert (Hi : i ∈ i :: rest) by left.
        apply Hin in Hi as (l & Hl & Hb & ->).
        inversion Hpre as [|? ? [k Hk] _]; subst.
        pose proof (leading_whitespace_spaces l) as Hsp.
        rewrite Hk in Hsp. by apply Forall_app in Hsp as [? _].
      * intros p Hp _. by apply Hmax.
    + f_equal. rewrite map_map. apply map_ext_in. intros l Hl%list_elem_of_In.
      rewrite blank_whitespace_only_blank. unfold dedent_line, remove_margin.
      destruct (blank l) eqn:Hb; [done |].
      by rewrite (proj2 (startswith_prefix l (c :: m)) (Hline l Hl Hb)).
  - exists []. split.
    + split; [constructor |]. split; [intros; apply prefix_nil |].
      intros p _ (l & Hl & Hb) _.
      assert (Hi : leading_whitespace l ∈ indents) by (apply Hin; eauto).
      rewrite Hm in Hi. by apply elem_of_nil in Hi.
    + f_equal. apply Hempty. by right.
Qed.

(** ** The re-indentation helper *)

Lemma called_from_example (line : str) (files : gmap (list string) node) :
  called_from (example_world line files) line.
Proof.
  exists {| code_context := None |}, {| code_context := Some [line] |}, [], [].
  by split.
Defined.

(** C1, as stated, fails: re-indenting every line of the dedented block to
    the caller's column is not what [normalize_indent] returns.  From a plain
    statement at column 4 the block ["x"] comes back as ["x"]; from an
    interpolation at column 4 the block ["x\ny"] comes back with its first
    line at column 0. *)
Lemma normalize_indent_every_line_cex :
  indent_of plain_call = 4%nat /\
  fst (normalize_indent (py "x") (example_world plain_call ∅)) = Ok (py "x") /\
  fst (normalize_indent (py "x") (example_world plain_call ∅))
    <> Ok (indent_every_line (indent_of plain_call) (strip (dedent (py "x")))) /\
  indent_of interpolated_call = 4%nat /\
  fst (normalize_indent (py "x" ++ [LF] ++ py "y")
         (example_world interpolated_call ∅))
    = Ok (py "x" ++ [LF] ++ py "    y") /\
  fst (normalize_indent (py "x" ++ [LF] ++ py "y")
         (example_world interpolated_call ∅))
    <> Ok (indent_every_line (indent_of interpolated_call)
             (strip (dedent (py "x" ++ [LF] ++ py "y")))).
Proof.
  repeat split; try (vm_compute; reflexivity); vm_compute; discriminate.
Qed.

(** C1 (amended): for a caller's line that holds a character other than
    whitespace, [normalize_indent] removes the minimal common leading
    whitespace [margin] from the lines of the block (emptying blank lines),
    strips the result, and looks at the character [c] at the caller's
    indentation N.  When [c] is an opening brace it returns the first line
    of the stripped block as it is, followed by the later lines, each
    prefixed by exactly N spaces unless it consists solely of whitespace;
    otherwise it returns the stripped block with no indentation added. *)
Theorem normalize_indent_reindent (w : World) (code call_line : str) :
  called_from w call_line ->
  (exists c, c ∈ call_line /\ isspace_char c = false) ->
  exists margin c,
    common_margin code margin /\
    dedent code = join_nl (map (dedent_line margin) (split_nl code)) /\
    call_line !! indent_of call_line = Some c /\
    normalize_indent code w =
      (Ok (if c =? LBRACE then
             match splitlines (strip (dedent code)) with
             | first :: others =>
                 first ++ concat (map (indent_line
                                         (replicate (indent_of call_line) SPACE))
                                      others)
             | [] => []
             end
           else strip (dedent code)), w).
Proof.
  intros Hcall Hline.
  destruct (dedent_spec code) as (margin & Hmargin & Hdedent).
  destruct (indent_of_nonblank call_line Hline) as (c & Hc & _).
  exists margin, c. repeat split; try done; try apply Hmargin.
  rewrite (normalize_indent_run w code call_line Hcall), Hc.
  destruct (c =? LBRACE); [| done].
  do 2 f_equal.
  destruct (splitlines (strip (dedent code))) as [|first others] eqn:Hs.
  - unfold textwrap_indent. rewrite Hs. simpl. by rewrite drop_nil.
  - rewrite (textwrap_indent_first _ _ first others (strip_head _) Hs).
    apply drop_replicate_app.
Qed.

Lemma normalize_indent_reindent_witness :
  exists margin c,
    common_margin (py "  a" ++ [LF] ++ py "    b") margin /\
    dedent (py "  a" ++ [LF] ++ py "    b")
      = join_nl (map (dedent_line margin)
                     (split_nl (py "  a" ++ [LF] ++ py "    b"))) /\
    interpolated_call !! indent_of interpolated_call = Some c /\
    normalize_indent (py "  a" ++ [LF] ++ py "    b")
        (example_world interpolated_call ∅) =
      (Ok (if c =? LBRACE then
             match splitlines (strip (dedent (py "  a" ++ [LF] ++ py "    b"))) with
             | first :: others =>
                 first ++ concat (map (indent_line
                                         (replicate (indent_of interpolated_call) SPACE))
                                      others)
             | [] => []
             end
           else strip (dedent (py "  a" ++ [LF] ++ py "    b"))),
       example_world interpolated_call ∅).
Proof.
  apply (normalize_indent_reindent (example_world interpolated_call ∅)).
  - apply called_from_example.
  - exists LBRACE. split; [| reflexivity].
    unfold interpolated_call. apply elem_of_app. left.
    do 4 apply list_elem_of_further. apply list_elem_of_here.
Defined.

(** C2, as stated, fails: inside an interpolation the caller's indentation
    does not go before every line of the block.  For the block ["a\n\nb"]
    interpolated at column 4, indenting every line and dropping four
    characters would leave four spaces on the empty line, whereas
    [normalize_indent] returns it empty. *)
Lemma normalize_indent_blank_line_cex :
  interpolated_call !! indent_of interpolated_call = Some LBRACE /\
  drop 4 (indent_every_line 4 (strip (dedent (py "a" ++ [LF; LF] ++ py "b"))))
    = py "a" ++ [LF] ++ py "    " ++ [LF] ++ py "    b" /\
  fst (normalize_indent (py "a" ++ [LF; LF] ++ py "b")
         (example_world interpolated_call ∅))
    = Ok (py "a" ++ [LF; LF] ++ py "    b") /\
  fst (normalize_indent (py "a" ++ [LF; LF] ++ py "b")
         (example_world interpolated_call ∅))
    <> Ok (drop (indent_of interpolated_call)
             (indent_every_line (indent_of interpolated_call)
                (strip (dedent (py "a" ++ [LF; LF] ++ py "b"))))).
Proof.
  repeat split; try (vm_compute; reflexivity); vm_compute; discriminate.
Qed.

(** C2 (amended): if the character of the caller's line at its indentation N
    is an opening brace, [normalize_indent] puts N spaces before every line
    of the dedented, stripped block that does not consist solely of
    whitespace, and then drops N leading characters of the text; for a block
    that is not empty these are the N spaces just put before its first
    line, so that the first line comes back as it was and the later lines
    keep their prefix. *)
Theorem normalize_indent_interpolated (w : World) (code call_line : str) :
  called_from w call_line ->
  call_line !! indent_of call_line = Some LBRACE ->
  let n := indent_of call_line in
  let block := strip (dedent code) in
  let prefixed := fun l : str => if isspace l then l else replicate n SPACE ++ l in
  let indented := concat (map prefixed (splitlines block)) in
  normalize_indent code w = (Ok (drop n indented), w) /\
  (block <> [] ->
   exists first others,
     splitlines block = first :: others /\
     indented = replicate n SPACE ++ first ++ concat (map prefixed others) /\
     drop n indented = first ++ concat (map prefixed others)).
Proof.
  intros Hcall Hc n block prefixed indented.
  assert (Hind : textwrap_indent block (replicate n SPACE) = indented).
  { unfold textwrap_indent, indented. f_equal. apply map_ext. intros l.
    unfold indent_line, prefixed. by destruct (isspace l). }
  split.
  - rewrite (normalize_indent_run w code call_line Hcall), Hc. simpl.
    fold n block. by rewrite Hind.
  - intros Hne. destruct (splitlines block) as [|first others] eqn:Hs.
    { pose proof (concat_splitlines block) as Hcat. rewrite Hs in Hcat. done. }
    exists first, others. split; [done |].
    assert (Heq : indented
                  = replicate n SPACE ++ first ++ concat (map prefixed others)).
    { rewrite <- Hind.
      rewrite (textwrap_indent_first _ _ first others (strip_head _) Hs).
      do 3 f_equal. apply map_ext. intros l.
      unfold indent_line, prefixed. by destruct (isspace l). }
    split; [done |]. rewrite Heq. apply drop_replicate_app.
Qed.

Lemma normalize_indent_interpolated_witness :
  called_from (example_world interpolated_call ∅) interpolated_call /\
  interpolated_call !! indent_of interpolated_call = Some LBRACE /\
  normalize_indent (py "a" ++ [LF; LF] ++ py "b")
      (example_world interpolated_call ∅)
    = (Ok (py "a" ++ [LF; LF] ++ py "    b"), example_world interpolated_call ∅).
Proof.
  split; [apply called_from_example |]. split; [reflexivity |].
  exact (proj1 (normalize_indent_interpolated
                  (example_world interpolated_call ∅)
                  (py "a" ++ [LF; LF] ++ py "b") interpolated_call
                  (called_from_example _ _) eq_refl)).
Defined.

(** C3, as stated, fails: at caller column 4 the block ["def f():\n    pass"]
    never comes back as ["    def f():\n        pass"], whatever the caller's
    line is. *)
Lemma normalize_indent_def_f_cex :
  ~ exists (w : World) (call_line : str),
      called_from w call_line /\
      indent_of call_line = 4%nat /\
      fst (normalize_indent block_def_f w)
        = Ok (py "    def f():" ++ [LF] ++ py "        pass").
Proof.
  intros (w & call_line & Hcall & Hindent & Hres).
  rewrite (normalize_indent_run w _ call_line Hcall), Hindent in Hres.
  destruct (call_line !! 4%nat) as [c|]; [| done].
  destruct (c =? LBRACE); vm_compute in Hres; discriminate.
Qed.

(** C3 (amended): called from a line of indentation 4, [normalize_indent]
    returns the block ["def f():\n    pass"] unchanged when the character at
    column 4 of the caller's line is not an opening brace, and
    ["def f():\n        pass"] (first line at column 0, second line shifted
    by 4) when it is. *)
Theorem normalize_indent_def_f (w : World) (call_line : str) (c : char) :
  called_from w call_line ->
  indent_of call_line = 4%nat ->
  call_line !! 4%nat = Some c ->
  normalize_indent block_def_f w =
    (Ok (if c =? LBRACE
         then py "def f():" ++ [LF] ++ py "        pass"
         else py "def f():" ++ [LF] ++ py "    pass"), w).
Proof.
  intros Hcall Hindent Hc.
  rewrite (normalize_indent_run w _ call_line Hcall), Hindent, Hc.
  destruct (c =? LBRACE); do 2 f_equal.
Qed.

Lemma normalize_indent_def_f_witness :
  called_from (example_world interpolated_call ∅) interpolated_call /\
  indent_of interpolated_call = 4%nat /\
  interpolated_call !! 4%nat = Some LBRACE /\
  normalize_indent block_def_f (example_world interpolated_call ∅) =
    (Ok (py "def f():" ++ [LF] ++ py "        pass"),
     example_world interpolated_call ∅).
Proof.
  split; [apply called_from_example |]. do 2 (split; [reflexivity |]).
  exact (normalize_indent_def_f (example_world interpolated_call ∅)
           interpolated_call LBRACE (called_from_example _ _) eq_refl eq_refl).
Defined.

(** A block that needs no dedenting comes back from [dedent] as it is,
    provided none of its lines consists solely of whitespace. *)
Lemma dedent_minimal (code : str) :
  (forall c, head code = Some c -> isspace_char c = false) ->
  (forall l, l ∈ split_nl code -> isspace l = false) ->
  dedent code = code.
Proof.
  intros Hhead Hlines. unfold dedent.
  assert (Hid : map blank_whitespace_only (split_nl code) = split_nl code).
  { rewrite <- (map_id (split_nl code)) at 2.
    apply map_ext_in. intros l Hl%list_elem_of_In.
    unfold blank_whitespace_only, whitespace_only.
    destruct l as [|c l]; [done |].
    destruct (forallb is_space_or_tab (c :: l)) eqn:E; [| done].
    specialize (Hlines _ Hl). exfalso.
    assert (Hsp : forallb isspace_char (c :: l) = true).
    { apply forallb_forall. intros x Hx.
      apply space_or_tab_isspace. by eapply forallb_forall in E. }
    unfold isspace in Hlines. congruence. }
  rewrite Hid.
  destruct code as [|c s]; [done |].
  specialize (Hhead c eq_refl).
  assert (Hc : is_space_or_tab c = false).
  { destruct (is_space_or_tab c) eqn:E; [| done].
    apply space_or_tab_isspace in E. congruence. }
  assert (Hlf : (c =? LF) = false).
  { destruct (c =? LF) eqn:E; [| done].
    apply N.eqb_eq in E. subst c. done. }
  assert (Hsplit : exists l ls, split_nl (c :: s) = (c :: l) :: ls).
  { simpl. rewrite Hlf. pose proof (split_nl_nonempty s).
    destruct (split_nl s) as [|l ls]; [done | eauto]. }
  destruct Hsplit as (l & ls & Hsplit).
  rewrite <- (join_split_nl (c :: s)) at 2. rewrite Hsplit.
  assert (Hind : omap line_indent ((c :: l) :: ls) = [] :: omap line_indent ls).
  { unfold omap. simpl. unfold line_indent at 1. simpl. by rewrite Hc. }
  rewrite Hind. cbn [foldl margin_step].
  destruct (margin_fold [] (omap line_indent ls)) as (m & -> & Hm & _).
  apply prefix_nil_inv in Hm. by subst m.
Qed.

Lemma minimally_indented_from_a (rest : str) :
  (forall l, last (split_nl (py "a" ++ rest)) = Some l -> blank l = false) ->
  minimally_indented (py "a" ++ rest).
Proof.
  intros Hlast.
  assert (Hsplit : exists l ls, split_nl (py "a" ++ rest) = (97 :: l) :: ls).
  { simpl. pose proof (split_nl_nonempty rest).
    destruct (split_nl rest) as [|l ls]; [done | eauto]. }
  destruct Hsplit as (l & ls & Hsplit).
  split; [| split; [| done]].
  - split; [constructor |]. split; [intros; apply prefix_nil |].
    intros p Hp _ Hall.
    assert (Hpre : p `prefix_of` 97 :: l).
    { apply Hall; [rewrite Hsplit; left | done]. }
    destruct p as [|x p]; [done |].
    apply prefix_cons_inv_1 in Hpre. subst x.
    inversion Hp; subst. done.
  - rewrite Hsplit. simpl. intros ? [= <-]. done.
Qed.

(** C4, as stated, fails: called from a line at column 0, a block with zero
    common leading whitespace and no surrounding blank lines does not always
    come back unchanged.  An inner line of one space is emptied, and a space
    at the end of the last line is stripped. *)
Lemma normalize_indent_round_trip_cex :
  indent_of toplevel_call = 0%nat /\
  minimally_indented block_inner_blank /\
  fst (normalize_indent block_inner_blank (example_world toplevel_call ∅))
    = Ok (py "a" ++ [LF; LF] ++ py "b") /\
  fst (normalize_indent block_inner_blank (example_world toplevel_call ∅))
    <> Ok block_inner_blank /\
  minimally_indented block_trailing_space /\
  fst (normalize_indent block_trailing_space (example_world toplevel_call ∅))
    = Ok (py "a") /\
  fst (normalize_indent block_trailing_space (example_world toplevel_call ∅))
    <> Ok block_trailing_space.
Proof.
  split; [reflexivity |].
  split; [apply (minimally_indented_from_a ([LF] ++ py " " ++ [LF] ++ py "b"));
          vm_compute; by intros ? [= <-] |].
  split; [vm_compute; reflexivity |].
  split; [vm_compute; discriminate |].
  split; [apply (minimally_indented_from_a (py " "));
          vm_compute; by intros ? [= <-] |].
  split; [vm_compute; reflexivity | vm_compute; discriminate].
Qed.

(** C4 (amended): for every block that neither begins nor ends with a
    whitespace character and has no line consisting solely of whitespace,
    [normalize_indent] called from a line whose first character is not
    whitespace (indentation 0) returns the stripped, dedented text, which is
    the block itself. *)
Theorem normalize_indent_round_trip (w : World) (code call_line : str) :
  called_from w call_line ->
  (exists c rest, call_line = c :: rest /\ isspace_char c = false) ->
  (forall c, head code = Some c -> isspace_char c = false) ->
  (forall c, last code = Some c -> isspace_char c = false) ->
  (forall l, l ∈ split_nl code -> isspace l = false) ->
  indent_of call_line = 0%nat /\
  strip (dedent code) = code /\
  normalize_indent code w = (Ok code, w).
Proof.
  intros Hcall (c & rest & -> & Hc) Hhead Hlast Hlines.
  assert (Hindent : indent_of (c :: rest) = 0%nat).
  { unfold indent_of. simpl. rewrite Hc. simpl. lia. }
  assert (Hstrip : strip (dedent code) = code).
  { rewrite (dedent_minimal code Hhead Hlines). by apply strip_id. }
  repeat split; [done | done |].
  rewrite (normalize_indent_run w code _ Hcall), Hindent, Hstrip. simpl.
  destruct (c =? LBRACE); [| done].
  by rewrite textwrap_indent_nil, drop_0.
Qed.

Lemma normalize_indent_round_trip_witness :
  indent_of toplevel_call = 0%nat /\
  strip (dedent block_def_f) = block_def_f /\
  normalize_indent block_def_f (example_world toplevel_call ∅)
    = (Ok block_def_f, example_world toplevel_call ∅).
Proof.
  apply (normalize_indent_round_trip (example_world toplevel_call ∅)
           block_def_f toplevel_call).
  - apply called_from_example.
  - eexists _, _. split; reflexivity.
  - intros c [= <-]. reflexivity.
  - intros c [= <-]. reflexivity.
  - intros l Hl. vm_compute in Hl.
    apply elem_of_cons in Hl as [-> | Hl]; [reflexivity |].
    apply elem_of_cons in Hl as [-> | Hl]; [reflexivity |].
    by apply elem_of_nil in Hl.
Defined.

(** C5: whenever the character of the caller's line at the computed
    indentation is not an opening brace, [normalize_indent] returns exactly
    the dedented, stripped block; the result does not mention the caller's
    indentation, and no indentation is put back. *)
Theorem normalize_indent_plain (w : World) (code call_line : str) (c : char) :
  called_from w call_line ->
  call_line !! indent_of call_line = Some c ->
  c <> LBRACE ->
  normalize_indent code w = (Ok (strip (dedent code)), w).
Proof.
  intros Hcall Hc Hne.
  rewrite (normalize_indent_run w code call_line Hcall), Hc.
  by destruct (N.eqb_spec c LBRACE).
Qed.

Lemma normalize_indent_plain_witness :
  plain_call !! indent_of plain_call = Some 116 /\
  normalize_indent (py "  a" ++ [LF] ++ py "    b") (example_world plain_call ∅)
    = (Ok (py "a" ++ [LF] ++ py "  b"), example_world plain_call ∅).
Proof.
  split; [reflexivity |].
  exact (normalize_indent_plain (example_world plain_call ∅)
           (py "  a" ++ [LF] ++ py "    b") plain_call 116
           (called_from_example _ _) eq_refl
           (fun H : 116 = LBRACE => eq_ind 116
              (fun n => match n with 116 => True | _ => False end) I _ H)).
Defined.

(** ** The index into the caller's line *)

(** C8: [normalize_indent] indexes the caller's line at the computed
    indentation without a guard.  When the line holds a character other than
    whitespace the index is within the line and the function returns; when
    the line consists solely of whitespace the index is the length of the
    line and the function raises [IndexError]. *)
Theorem normalize_indent_index (w : World) (code call_line : str) :
  called_from w call_line ->
  ((exists c, c ∈ call_line /\ isspace_char c = false) ->
   (indent_of call_line < length call_line)%nat /\
   exists out, normalize_indent code w = (Ok out, w)) /\
  ((forall c, c ∈ call_line -> isspace_char c = true) ->
   indent_of call_line = length call_line /\
   normalize_indent code w = (Raise IndexError, w)).
Proof.
  intros Hcall. rewrite (normalize_indent_run w code call_line Hcall). split.
  - intros Hline. destruct (indent_of_nonblank call_line Hline) as (c & Hc & _).
    split; [by apply lookup_lt_Some in Hc |].
    rewrite Hc. destruct (c =? LBRACE); eauto.
  - intros Hblank. rewrite (indent_of_blank call_line Hblank). split; [| done].
    unfold indent_of. rewrite (proj2 (lstrip_nil call_line) Hblank). simpl. lia.
Qed.

Lemma normalize_indent_index_witness :
  ((exists c, c ∈ plain_call /\ isspace_char c = false) ->
   (indent_of plain_call < length plain_call)%nat /\
   exists out,
     normalize_indent block_def_f (example_world plain_call ∅)
       = (Ok out, example_world plain_call ∅)) /\
  ((forall c, c ∈ plain_call -> isspace_char c = true) ->
   indent_of plain_call = length plain_call /\
   normalize_indent block_def_f (example_world plain_call ∅)
     = (Raise IndexError, example_world plain_call ∅)).
Proof.
  exact (normalize_indent_index (example_world plain_call ∅) block_def_f
           plain_call (called_from_example _ _)).
Defined.

(** ** The ends of the returned text *)

(** C9: whatever the block and the caller's line, a string that
    [normalize_indent] returns neither begins nor ends with a whitespace
    character. *)
Theorem normalize_indent_stripped (w : World) (code out : str) :
  fst (normalize_indent code w) = Ok out ->
  (forall c, head out = Some c -> isspace_char c = false) /\
  (forall c, last out = Some c -> isspace_char c = false).
Proof.
  intros Hout.
  destruct (normalize_indent_returns w code out Hout) as [call_line Hcall].
  rewrite (normalize_indent_run w code call_line Hcall) in Hout.
  destruct (call_line !! indent_of call_line) as [c|]; [| done].
  destruct (c =? LBRACE); simpl in Hout; injection Hout as <-;
    [| split; [apply strip_head | apply strip_last]].
  set (block := strip (dedent code)).
  pose proof (concat_splitlines block) as Hcat.
  pose proof (splitlines_nonempty block) as Hne.
  destruct (splitlines block) as [|first others] eqn:Hs.
  { unfold textwrap_indent. rewrite Hs. simpl. rewrite drop_nil. by split. }
  rewrite (textwrap_indent_first _ _ first others (strip_head _) Hs).
  rewrite drop_replicate_app.
  inversion Hne as [|? ? Hfirst Hothers]; subst.
  split; intros c0 Hc0.
  - apply (strip_head (dedent code)). fold block. rewrite <- Hcat.
    destruct first as [|x first]; [done |]. exact Hc0.
  - apply (strip_last (dedent code)). fold block. rewrite <- Hcat.
    rewrite last_concat_indent in Hc0 by done. exact Hc0.
Qed.

Lemma normalize_indent_stripped_witness :
  fst (normalize_indent ([LF] ++ py "  a" ++ [LF; LF] ++ py "    b  " ++ [LF])
         (example_world interpolated_call ∅))
    = Ok (py "a" ++ [LF; LF] ++ py "      b") /\
  (forall c, head (py "a" ++ [LF; LF] ++ py "      b") = Some c ->
             isspace_char c = false) /\
  (forall c, last (py "a" ++ [LF; LF] ++ py "      b") = Some c ->
             isspace_char c = false).
Proof.
  split; [reflexivity |].
  exact (normalize_indent_stripped (example_world interpolated_call ∅)
           ([LF] ++ py "  a" ++ [LF; LF] ++ py "    b  " ++ [LF])
           (py "a" ++ [LF; LF] ++ py "      b") eq_refl).
Defined.

(** ** The preamble loader *)

Lemma preamble_path_sibling (w : World) (dir : list string) (name : string) :
  dunder_file w = dir ++ [name] ->
  preamble_path w = dir ++ ["preamble.txt"%string].
Proof.
  intros H. unfold preamble_path, joinpath, parent.
  by rewrite H, removelast_last.
Qed.

(** C6, as stated, fails: the text [get_preamble] returns is not always the
    content of the file as it is.  The file is opened in text mode, and for
    the content ["a\r\nb"] the text returned is ["a\nb"]. *)
Lemma get_preamble_verbatim_cex :
  fs (example_world plain_call crlf_files)
    !! preamble_path (example_world plain_call crlf_files)
    = Some (File crlf_bytes) /\
  locale_decode (example_world plain_call crlf_files) crlf_bytes
    = Some (py "a" ++ [CR; LF] ++ py "b") /\
  fst (get_preamble (example_world plain_call crlf_files))
    = Ok (py "a" ++ [LF] ++ py "b") /\
  fst (get_preamble (example_world plain_call crlf_files))
    <> Ok (py "a" ++ [CR; LF] ++ py "b").
Proof.
  assert (Hfile : fs (example_world plain_call crlf_files)
                    !! preamble_path (example_world plain_call crlf_files)
                  = Some (File crlf_bytes)).
  { apply lookup_singleton_eq. }
  split; [exact Hfile |]. split; [reflexivity |].
  rewrite get_preamble_run, Hfile. simpl.
  split; [reflexivity | discriminate].
Qed.

(** C6 (amended): [get_preamble] takes no input, resolves ["preamble.txt"]
    in the directory of the module's own file, reads that file fully, and
    returns its decoded content with every line end ([\r\n] or [\r]) read as
    [\n]; the content comes back verbatim when it holds no carriage
    return. *)
Theorem get_preamble_contents (w : World) (dir : list string) (name : string)
    (bytes : list Byte.byte) (text : str) :
  dunder_file w = dir ++ [name] ->
  fs w !! (dir ++ ["preamble.txt"%string]) = Some (File bytes) ->
  locale_decode w bytes = Some text ->
  get_preamble w = (Ok (universal_newlines text), w) /\
  (CR ∉ text -> get_preamble w = (Ok text, w)).
Proof.
  intros Hfile Hnode Hdecode.
  assert (Hrun : get_preamble w = (Ok (universal_newlines text), w)).
  { rewrite get_preamble_run, (preamble_path_sibling w dir name Hfile).
    by rewrite Hnode, Hdecode. }
  split; [done |]. intros Hcr. by rewrite Hrun, universal_newlines_id.
Qed.

Lemma get_preamble_contents_witness :
  get_preamble (example_world plain_call lf_files)
    = (Ok (universal_newlines (py "a" ++ [LF] ++ py "b")),
       example_world plain_call lf_files) /\
  (CR ∉ py "a" ++ [LF] ++ py "b" ->
   get_preamble (example_world plain_call lf_files)
     = (Ok (py "a" ++ [LF] ++ py "b"), example_world plain_call lf_files)).
Proof.
  apply (get_preamble_contents (example_world plain_call lf_files)
           ["sourcegen"%string] "_helpers.py"%string lf_bytes).
  - reflexivity.
  - apply lookup_singleton_eq.
  - reflexivity.
Defined.

(** ** Paths that lead nowhere *)

Lemma first_obstacle_none (files : gmap (list string) node) (qs : list (list string)) :
  first_obstacle files qs = None <->
  Forall (fun q => files !! q = Some Dir) qs.
Proof.
  induction qs as [|q qs IH]; simpl; [by split |].
  destruct (files !! q) as [[bytes| |]|] eqn:Hq; simpl.
  - split; [done |]. intros H. inversion H; congruence.
  - rewrite IH. split; [by constructor |]. intros H. by inversion H.
  - split; [done |]. intros H. inversion H; congruence.
  - split; [done |]. intros H. inversion H; congruence.
Qed.


(** On a file system that maps paths only below directories, looking the
    path up and examining its ancestors only when it is absent is [open] as
    the kernel resolves it. *)
Lemma open_top_down_lookup (files : gmap (list string) node) (p : list string) :
  well_formed files ->
  open_top_down files p =
    match files !! p with
    | Some found => Ok found
    | None => Raise (open_error files p)
    end.
Proof.
  intros Hwf. unfold open_top_down, open_error.
  destruct (files !! p) as [found|] eqn:Hp.
  - by rewrite (proj2 (first_obstacle_none files (ancestors p)) (Hwf p found Hp)).
  - by destruct (first_obstacle files (ancestors p)).
Qed.




(** ** Determinism and independence *)

(** C10, as stated, fails: two runs of [get_preamble] over the same file
    content do not always give the same result.  The file is decoded with
    the locale's codec: the one byte 0xE9 is read as one character under
    Latin-1 and raises [UnicodeDecodeError] under ASCII. *)
Lemma helpers_deterministic_cex :
  fs (example_world plain_call accent_files)
    !! preamble_path (example_world plain_call accent_files)
    = Some (File accent_bytes) /\
  fs (ascii_world plain_call accent_files)
    !! preamble_path (ascii_world plain_call accent_files)
    = Some (File accent_bytes) /\
  fst (get_preamble (example_world plain_call accent_files)) = Ok [233] /\
  fst (get_preamble (ascii_world plain_call accent_files))
    = Raise UnicodeDecodeError /\
  fst (get_preamble (example_world plain_call accent_files))
    <> fst (get_preamble (ascii_world plain_call accent_files)).
Proof.
  repeat split; by vm_compute.
Qed.

(** C10 (amended): the two functions are deterministic and share no mutable
    state.  Two runs of [normalize_indent] with the same block and the same
    caller's line have the same outcome; two runs of [get_preamble] over the
    same file content have the same outcome when the locale's codec decodes
    that content alike in both; each call leaves the world as it found it,
    and running one does not change the outcome of the other. *)
Theorem helpers_deterministic (w1 w2 : World) (code : str) :
  (forall call_line,
      called_from w1 call_line -> called_from w2 call_line ->
      fst (normalize_indent code w1) = fst (normalize_indent code w2)) /\
  (forall bytes,
      fs w1 !! preamble_path w1 = Some (File bytes) ->
      fs w2 !! preamble_path w2 = Some (File bytes) ->
      locale_decode w1 bytes = locale_decode w2 bytes ->
      fst (get_preamble w1) = fst (get_preamble w2)) /\
  snd (normalize_indent code w1) = w1 /\
  snd (get_preamble w1) = w1 /\
  fst (get_preamble (snd (normalize_indent code w1))) = fst (get_preamble w1) /\
  fst (normalize_indent code (snd (get_preamble w1)))
    = fst (normalize_indent code w1).
Proof.
  assert (Hworld : snd (get_preamble w1) = w1).
  { rewrite get_preamble_run.
    destruct (fs w1 !! preamble_path w1) as [[bytes| |]|]; try done.
    by destruct (locale_decode w1 bytes). }
  split; [| split; [| repeat split]].
  - intros call_line Hc1 Hc2.
    rewrite (normalize_indent_run w1 code call_line Hc1).
    rewrite (normalize_indent_run w2 code call_line Hc2).
    destruct (call_line !! indent_of call_line) as [c|]; [| done].
    by destruct (c =? LBRACE).
  - intros bytes H1 H2 Hdecode.
    rewrite !get_preamble_run, H1, H2, Hdecode.
    by destruct (locale_decode w2 bytes).
  - apply normalize_indent_world.
  - exact Hworld.
  - by rewrite normalize_indent_world.
  - by rewrite Hworld.
Qed.

Lemma helpers_deterministic_witness :
  fst (normalize_indent block_def_f (example_world interpolated_call lf_files))
    = fst (normalize_indent block_def_f other_world) /\
  fst (get_preamble (example_world interpolated_call lf_files))
    = fst (get_preamble other_world).
Proof.
  assert (H := helpers_deterministic
                 (example_world interpolated_call lf_files) other_world
                 block_def_f).
  destruct H as (H1 & H2 & _). split.
  - apply (H1 interpolated_call).
    + apply called_from_example.
    + exists {| code_context := None |},
             {| code_context := Some [interpolated_call] |},
             [ {| code_context := Some [toplevel_call] |} ], [].
      split; reflexivity.
  - apply (H2 lf_bytes).
    + apply lookup_singleton_eq.
    + unfold other_world, preamble_path. simpl.
      rewrite lookup_insert_ne by discriminate. apply lookup_singleton_eq.
    + reflexivity.
Defined.

(** * Further properties of the two helpers *)

(** ** Lines of a text, once more *)

Lemma split_nl_unfold (c : char) (s : str) :
  split_nl (c :: s) =
    if c =? LF then [] :: split_nl s
    else match split_nl s with
         | l :: ls => (c :: l) :: ls
         | [] => [[c]]
         end.
Proof. reflexivity. Qed.

Lemma split_nl_no_newline (s : str) : Forall (fun l => LF ∉ l) (split_nl s).
Proof.
  induction s as [|c s IH]; [| rewrite split_nl_unfold].
  - constructor; [apply not_elem_of_nil | constructor].
  - destruct (N.eqb_spec c LF) as [Hc | Hc].
    + constructor; [apply not_elem_of_nil | done].
    + destruct (split_nl s) as [|l ls]; inversion IH; subst.
      * constructor; [| constructor].
        intros [Heq | H]%elem_of_cons; [done | by apply elem_of_nil in H].
      * constructor; [| done].
        intros [Heq | H]%elem_of_cons; [done | auto].
Qed.

Lemma split_join_nl (ls : list str) :
  ls <> [] -> Forall (fun l => LF ∉ l) ls -> split_nl (join_nl ls) = ls.
Proof.
  assert (Hline : forall (l rest : str) (ls : list str),
            LF ∉ l -> split_nl rest = ls -> ls <> [] ->
            split_nl (l ++ LF :: rest) = l :: ls).
  { induction l as [|c l IH]; intros rest ls' Hl Hrest Hne.
    - simpl. by rewrite Hrest.
    - apply not_elem_of_cons in Hl as [Hc Hl].
      change ((c :: l) ++ LF :: rest) with (c :: (l ++ LF :: rest)).
      rewrite split_nl_unfold, (IH rest ls' Hl Hrest Hne).
      by destruct (N.eqb_spec c LF). }
  assert (Hone : forall l : str, LF ∉ l -> split_nl l = [l]).
  { induction l as [|c l IH]; intros Hl; [done |].
    apply not_elem_of_cons in Hl as [Hc Hl].
    rewrite split_nl_unfold, (IH Hl). by destruct (N.eqb_spec c LF). }
  induction ls as [|l ls IH]; intros Hne Hall; [done |].
  inversion Hall as [|? ? Hl Hls]; subst.
  destruct ls as [|l' ls'].
  - simpl. by apply Hone.
  - change (join_nl (l :: l' :: ls')) with (l ++ LF :: join_nl (l' :: ls')).
    apply Hline; [done | by apply IH | done].
Qed.

(** The lines of a concatenation: the last line of the first text and the
    first line of the second are joined. *)
Lemma split_nl_app (a b : str) :
  exists ia la hb tb,
    split_nl a = ia ++ [la] /\ split_nl b = hb :: tb /\
    split_nl (a ++ b) = ia ++ (la ++ hb) :: tb.
Proof.
  pose proof (split_nl_nonempty b) as Hb.
  destruct (split_nl b) as [|hb tb] eqn:Eb; [done |]. clear Hb.
  induction a as [|c a IH].
  - exists [], [], hb, tb. simpl. by rewrite Eb.
  - destruct IH as (ia & la & hb' & tb' & Ha & [= <- <-] & Hab).
    change ((c :: a) ++ b) with (c :: (a ++ b)).
    rewrite !split_nl_unfold, Ha, Hab.
    destruct (c =? LF).
    + by exists ([] :: ia), la, hb, tb.
    + destruct ia as [|i0 ia']; simpl.
      * by exists [], (c :: la), hb, tb.
      * by exists ((c :: i0) :: ia'), la, hb, tb.
Qed.

(** ** What [normalize_indent] keeps of the block *)

Lemma non_whitespace_app (a b : str) :
  non_whitespace (a ++ b) = non_whitespace a ++ non_whitespace b.
Proof. apply List.filter_app. Qed.

Lemma non_whitespace_spaces (ws : str) :
  forallb isspace_char ws = true -> non_whitespace ws = [].
Proof.
  induction ws as [|c ws IH]; [done |]. simpl.
  intros [Hc Hws]%andb_true_iff. rewrite Hc. simpl. auto.
Qed.

Lemma non_whitespace_blank (l : str) :
  Forall (fun c => is_space_or_tab c = true) l -> non_whitespace l = [].
Proof.
  intros H. apply non_whitespace_spaces, forallb_forall.
  intros c Hc%list_elem_of_In. rewrite Forall_forall in H.
  by apply space_or_tab_isspace, H.
Qed.

Lemma non_whitespace_reverse (s : str) :
  non_whitespace (reverse s) = reverse (non_whitespace s).
Proof.
  induction s as [|c s IH]; [done |].
  rewrite reverse_cons, non_whitespace_app, IH. simpl.
  destruct (negb (isspace_char c)); simpl.
  - by rewrite reverse_cons.
  - by rewrite app_nil_r.
Qed.

Lemma non_whitespace_lstrip (s : str) :
  non_whitespace (lstrip s) = non_whitespace s.
Proof.
  destruct (lstrip_split s) as (ws & Hs & Hws).
  rewrite Hs at 2. by rewrite non_whitespace_app, (non_whitespace_spaces ws Hws).
Qed.

Lemma non_whitespace_strip (s : str) :
  non_whitespace (strip s) = non_whitespace s.
Proof.
  unfold strip, rstrip.
  rewrite non_whitespace_reverse, non_whitespace_lstrip, non_whitespace_reverse.
  by rewrite reverse_involutive, non_whitespace_lstrip.
Qed.

Lemma non_whitespace_join_nl (ls : list str) :
  non_whitespace (join_nl ls) = concat (map non_whitespace ls).
Proof.
  induction ls as [|l ls IH]; [done |].
  destruct ls as [|l' ls'].
  - simpl. by rewrite app_nil_r.
  - change (join_nl (l :: l' :: ls')) with (l ++ LF :: join_nl (l' :: ls')).
    rewrite non_whitespace_app.
    change (non_whitespace (LF :: join_nl (l' :: ls')))
      with (non_whitespace (join_nl (l' :: ls'))).
    by rewrite IH.
Qed.

Lemma non_whitespace_dedent (text : str) :
  non_whitespace (dedent text) = non_whitespace text.
Proof.
  destruct (dedent_spec text) as (margin & (Hsp & Hpre & _) & ->).
  rewrite <- (join_split_nl text) at 2. rewrite !non_whitespace_join_nl.
  f_equal. rewrite map_map. apply map_ext_in. intros l Hl%list_elem_of_In.
  unfold dedent_line. destruct (blank l) eqn:Hb.
  - symmetry. apply non_whitespace_blank, Forall_forall.
    intros c Hc%list_elem_of_In. unfold blank in Hb.
    by eapply forallb_forall in Hb.
  - destruct (Hpre l Hl Hb) as [k ->].
    rewrite drop_app_length, non_whitespace_app.
    by rewrite (non_whitespace_blank margin Hsp).
Qed.

Lemma non_whitespace_indent (text : str) (n : nat) :
  non_whitespace (textwrap_indent text (replicate n SPACE)) = non_whitespace text.
Proof.
  unfold textwrap_indent. rewrite <- (concat_splitlines text) at 2.
  induction (splitlines text) as [|l ls IH]; [done |].
  simpl. rewrite !non_whitespace_app, IH. f_equal.
  unfold indent_line. destruct (negb (isspace l)); [| done].
  rewrite non_whitespace_app, non_whitespace_blank; [done |].
  apply Forall_forall. by intros c ->%elem_of_replicate_inv.
Qed.

Lemma non_whitespace_drop_indent (text : str) (n : nat) :
  (forall c, head text = Some c -> isspace_char c = false) ->
  non_whitespace (drop n (textwrap_indent text (replicate n SPACE)))
    = non_whitespace text.
Proof.
  intros Hhead.
  destruct (splitlines text) as [|first others] eqn:Hs.
  - unfold textwrap_indent. rewrite Hs. simpl. rewrite drop_nil.
    pose proof (concat_splitlines text) as Hcat. rewrite Hs in Hcat.
    by rewrite <- Hcat.
  - rewrite <- (non_whitespace_indent text n).
    rewrite (textwrap_indent_first _ _ first others Hhead Hs).
    rewrite drop_replicate_app, (non_whitespace_app (replicate n SPACE)).
    rewrite (non_whitespace_blank (replicate n SPACE)); [done |].
    apply Forall_forall. by intros c ->%elem_of_replicate_inv.
Qed.

(** X1: the non-whitespace characters survive.  Whatever [normalize_indent]
    returns holds the characters of the block that are not whitespace, all of
    them and in their order: the function moves, adds and removes whitespace
    only. *)
Theorem normalize_indent_keeps_text (w : World) (code out : str) :
  fst (normalize_indent code w) = Ok out ->
  non_whitespace out = non_whitespace code.
Proof.
  intros Hout.
  destruct (normalize_indent_returns w code out Hout) as [call_line Hcall].
  rewrite (normalize_indent_run w code call_line Hcall) in Hout.
  destruct (call_line !! indent_of call_line) as [c|]; [| done].
  destruct (c =? LBRACE); simpl in Hout; injection Hout as <-.
  - rewrite non_whitespace_drop_indent by apply strip_head.
    by rewrite non_whitespace_strip, non_whitespace_dedent.
  - by rewrite non_whitespace_strip, non_whitespace_dedent.
Qed.

(** ** A second pass *)

Lemma not_whitespace_only (l : str) (c : char) :
  c ∈ l -> is_space_or_tab c = false -> whitespace_only l = false.
Proof.
  intros Hin Hc. unfold whitespace_only. destruct l as [|x l]; [done |].
  destruct (forallb is_space_or_tab (x :: l)) eqn:E; [| done].
  eapply forallb_forall in E; [| by apply list_elem_of_In]. congruence.
Qed.

Lemma not_space_or_tab (c : char) : isspace_char c = false -> is_space_or_tab c = false.
Proof.
  intros Hc. destruct (is_space_or_tab c) eqn:E; [| done].
  apply space_or_tab_isspace in E. congruence.
Qed.

Lemma split_nl_first (s : str) (c : char) :
  head s = Some c -> c <> LF -> exists l ls, split_nl s = (c :: l) :: ls.
Proof.
  destruct s as [|x s]; [done |]. intros [= ->] Hc.
  rewrite split_nl_unfold. apply N.eqb_neq in Hc. rewrite Hc.
  destruct (split_nl s) as [|l ls]; eauto.
Qed.

Lemma split_nl_last (s : str) (c : char) :
  last s = Some c -> c <> LF ->
  exists ia la, split_nl s = ia ++ [la] /\ last la = Some c.
Proof.
  intros Hlast Hc. induction s as [|x s IH]; [done |].
  destruct s as [|y s].
  - injection Hlast as ->. exists [], [c]. split; [| done].
    rewrite split_nl_unfold. apply N.eqb_neq in Hc. by rewrite Hc.
  - rewrite last_cons_cons in Hlast.
    destruct (IH Hlast) as (ia & la & Hs & Hla).
    rewrite split_nl_unfold, Hs. destruct (x =? LF).
    + by exists ([] :: ia), la.
    + destruct ia as [|i0 ia']; simpl.
      * exists [], (x :: la). split; [done |].
        destruct la; [done | by rewrite last_cons_cons].
      * by exists ((x :: i0) :: ia'), la.
Qed.

(** A text without lines of spaces and tabs only, and not starting with
    whitespace, is a fixed point of [dedent]. *)
Lemma dedent_fixed (text : str) :
  (forall c, head text = Some c -> isspace_char c = false) ->
  (forall l, l ∈ split_nl text -> whitespace_only l = false) ->
  dedent text = text.
Proof.
  intros Hhead Hlines. unfold dedent.
  assert (Hid : map blank_whitespace_only (split_nl text) = split_nl text).
  { rewrite <- (map_id (split_nl text)) at 2.
    apply map_ext_in. intros l Hl%list_elem_of_In.
    unfold blank_whitespace_only. by rewrite (Hlines l Hl). }
  rewrite Hid. destruct text as [|c s]; [done |].
  specialize (Hhead c eq_refl).
  destruct (split_nl_first (c :: s) c eq_refl) as (l & ls & Hsplit).
  { by intros ->. }
  rewrite <- (join_split_nl (c :: s)) at 2. rewrite Hsplit.
  assert (Hind : omap line_indent ((c :: l) :: ls) = [] :: omap line_indent ls).
  { unfold omap. simpl. unfold line_indent at 1. simpl.
    by rewrite (not_space_or_tab c Hhead). }
  rewrite Hind. cbn [foldl margin_step].
  destruct (margin_fold [] (omap line_indent ls)) as (m & -> & Hm & _).
  apply prefix_nil_inv in Hm. by subst m.
Qed.

(** [dedent] leaves no line of spaces and tabs only. *)
Lemma dedent_lines (text : str) :
  forall l, l ∈ split_nl (dedent text) -> whitespace_only l = false.
Proof.
  destruct (dedent_spec text) as (margin & (Hsp & Hpre & _) & ->).
  pose proof (split_nl_no_newline text) as Hnl.
  rewrite split_join_nl.
  - intros l (l0 & -> & Hl0)%list_elem_of_fmap.
    unfold dedent_line. destruct (blank l0) eqn:Hb; [done |].
    destruct (Hpre l0 Hl0 Hb) as [k ->]. rewrite drop_app_length.
    unfold blank in Hb. rewrite forallb_app in Hb.
    assert (Hm : forallb is_space_or_tab margin = true).
    { apply forallb_forall. intros c Hc%list_elem_of_In.
      rewrite Forall_forall in Hsp. auto. }
    rewrite Hm in Hb. simpl in Hb. unfold whitespace_only.
    by destruct k.
  - pose proof (split_nl_nonempty text). by destruct (split_nl text).
  - apply Forall_forall. intros l (l0 & -> & Hl0)%list_elem_of_fmap.
    rewrite Forall_forall in Hnl. specialize (Hnl l0 Hl0).
    unfold dedent_line. destruct (blank l0); [apply not_elem_of_nil |].
    intros Hin. apply Hnl. rewrite <- (take_drop (length margin) l0).
    apply elem_of_app. by right.
Qed.

(** Stripping keeps that. *)
Lemma strip_lines (text : str) :
  (forall l, l ∈ split_nl text -> whitespace_only l = false) ->
  forall l, l ∈ split_nl (strip text) -> whitespace_only l = false.
Proof.
  intros Htext.
  assert (Hleft : forall l, l ∈ split_nl (lstrip text) -> whitespace_only l = false).
  { destruct (lstrip_split text) as (ws & Ht & _).
    destruct (split_nl_app ws (lstrip text)) as (ia & la & hb & tb & _ & Hu & Hall).
    rewrite <- Ht in Hall. rewrite Hu. intros l [-> | Hl]%elem_of_cons.
    - destruct (lstrip text) as [|c u] eqn:Eu; [by injection Hu as <- <- |].
      pose proof (lstrip_head text c) as Hc. rewrite Eu in Hc.
      specialize (Hc eq_refl).
      destruct (split_nl_first (c :: u) c eq_refl) as (l' & ls' & Hs).
      { by intros ->. }
      rewrite Hs in Hu. injection Hu as <- <-.
      apply (not_whitespace_only _ c); [by left | by apply not_space_or_tab].
    - apply Htext. rewrite Hall. apply elem_of_app. right. by right. }
  unfold strip. set (u := lstrip text) in *. clearbody u.
  set (v := rstrip u).
  assert (Hu : exists ws, u = v ++ ws).
  { destruct (lstrip_split (reverse u)) as (ws & Hr & _).
    exists (reverse ws). unfold v, rstrip. rewrite <- reverse_app, <- Hr.
    by rewrite reverse_involutive. }
  destruct Hu as (ws & Hu).
  destruct (split_nl_app v ws) as (ia & la & hb & tb & Hv & _ & Hall).
  rewrite <- Hu in Hall. rewrite Hv.
  intros l [Hl | ->%list_elem_of_singleton]%elem_of_app.
  - apply Hleft. rewrite Hall. apply elem_of_app. by left.
  - destruct (last v) as [c|] eqn:Hlast.
    + assert (Hc : isspace_char c = false).
      { apply (lstrip_head (reverse u)). unfold v, rstrip in Hlast.
        by rewrite last_reverse in Hlast. }
      destruct (split_nl_last v c Hlast) as (ia' & la' & Hv' & Hla).
      { by intros ->. }
      rewrite Hv in Hv'. apply app_inj_tail in Hv' as [_ <-].
      apply (not_whitespace_only _ c); [| by apply not_space_or_tab].
      by apply last_Some_elem_of.
    + apply last_None in Hlast. rewrite Hlast in Hv.
      destruct ia; [by injection Hv as <- | by destruct ia].
Qed.

Lemma strip_strip (s : str) : strip (strip s) = strip s.
Proof. apply strip_id; [apply strip_head | apply strip_last]. Qed.

(** Dedenting and stripping a second time changes nothing. *)
Lemma strip_dedent_idempotent (code : str) :
  strip (dedent (strip (dedent code))) = strip (dedent code).
Proof.
  rewrite dedent_fixed; [apply strip_strip | apply strip_head |].
  apply strip_lines, dedent_lines.
Qed.

(** X2: idempotence.  What [normalize_indent] returns from a plain call
    site (no opening brace at the caller's indentation) comes back unchanged
    when it is passed to [normalize_indent] again from a plain call site. *)
Theorem normalize_indent_idempotent
    (w w' : World) (code out line line' : str) (c c' : char) :
  called_from w line -> line !! indent_of line = Some c -> c <> LBRACE ->
  called_from w' line' -> line' !! indent_of line' = Some c' -> c' <> LBRACE ->
  fst (normalize_indent code w) = Ok out ->
  normalize_indent out w' = (Ok out, w').
Proof.
  intros Hcall Hc Hne Hcall' Hc' Hne' Hout.
  apply N.eqb_neq in Hne, Hne'.
  rewrite (normalize_indent_run w code line Hcall), Hc, Hne in Hout.
  injection Hout as <-.
  rewrite (normalize_indent_run w' _ line' Hcall'), Hc', Hne'.
  by rewrite strip_dedent_idempotent.
Qed.

(** ** The margin is the block's own *)

(** [dedent] is given by any minimal common leading whitespace of the
    text. *)
Lemma dedent_margin (text margin : str) :
  common_margin text margin ->
  dedent text = join_nl (map (dedent_line margin) (split_nl text)).
Proof.
  intros (Hsp & Hpre & Hmax).
  destruct (dedent_spec text) as (m' & (Hsp' & Hpre' & Hmax') & ->).
  f_equal. apply map_ext_in. intros l Hl%list_elem_of_In.
  unfold dedent_line. destruct (blank l) eqn:Hb; [done |].
  assert (Hex : exists l, l ∈ split_nl text /\ blank l = false) by eauto.
  assert (Heq : m' = margin).
  { apply (anti_symm prefix); [by apply Hmax | by apply Hmax']. }
  by rewrite Heq.
Qed.

Lemma blank_app (p l : str) :
  Forall (fun c => is_space_or_tab c = true) p -> blank (p ++ l) = blank l.
Proof.
  intros Hp. unfold blank. rewrite forallb_app.
  replace (forallb is_space_or_tab p) with true; [done |].
  symmetry. apply forallb_forall. intros c Hc%list_elem_of_In.
  rewrite Forall_forall in Hp. auto.
Qed.

Lemma blank_shift_line (p l : str) (also_blank : bool) :
  Forall (fun c => is_space_or_tab c = true) p ->
  blank (shift_line p also_blank l) = blank l.
Proof.
  intros Hp. unfold shift_line.
  destruct (blank l && negb also_blank); [done | by apply blank_app].
Qed.

Lemma blank_no_newline (l : str) : blank l = true -> LF ∉ l.
Proof.
  intros Hb Hin. unfold blank in Hb.
  eapply forallb_forall in Hb; [| by apply list_elem_of_In]. done.
Qed.

Lemma split_nl_shift_block (p text : str) (also_blank : bool) :
  Forall (fun c => is_space_or_tab c = true) p ->
  split_nl (shift_block p also_blank text)
    = map (shift_line p also_blank) (split_nl text).
Proof.
  intros Hp. unfold shift_block. apply split_join_nl.
  - pose proof (split_nl_nonempty text). by destruct (split_nl text).
  - apply Forall_forall. intros l (l0 & -> & Hl0)%list_elem_of_fmap.
    pose proof (split_nl_no_newline text) as Hnl.
    rewrite Forall_forall in Hnl. specialize (Hnl l0 Hl0).
    unfold shift_line. destruct (blank l0 && negb also_blank); [done |].
    intros [Hin | Hin]%elem_of_app; [| done].
    rewrite Forall_forall in Hp. by specialize (Hp LF Hin).
Qed.

Lemma common_margin_shift (p text margin : str) (also_blank : bool) :
  Forall (fun c => is_space_or_tab c = true) p ->
  common_margin text margin ->
  common_margin (shift_block p also_blank text) (p ++ margin).
Proof.
  intros Hp (Hsp & Hpre & Hmax).
  assert (Hnb : forall l, blank l = false -> shift_line p also_blank l = p ++ l).
  { intros l Hb. unfold shift_line. by rewrite Hb. }
  unfold common_margin. rewrite (split_nl_shift_block p text also_blank Hp).
  split; [by apply Forall_app |]. split.
  - intros l (l0 & -> & Hl0)%list_elem_of_fmap Hb.
    rewrite blank_shift_line in Hb by done.
    rewrite (Hnb l0 Hb). by apply prefix_app, Hpre.
  - intros q Hq (l & (l0 & -> & Hl0)%list_elem_of_fmap & Hb) Hall.
    rewrite blank_shift_line in Hb by done.
    assert (Hq0 : q `prefix_of` p ++ l0).
    { rewrite <- (Hnb l0 Hb). apply Hall.
      - apply list_elem_of_fmap. eauto.
      - by rewrite blank_shift_line. }
    destruct (prefix_weak_total q p (p ++ l0) Hq0) as [Hqp | [q' ->]].
    { by apply prefix_app_r. }
    { by apply prefix_app_r. }
    apply prefix_app, Hmax.
    + by apply Forall_app in Hq as [_ ?].
    + eauto.
    + intros l1 Hl1 Hb1. apply (prefix_app_inv p).
      rewrite <- (Hnb l1 Hb1). apply Hall.
      * apply list_elem_of_fmap. eauto.
      * by rewrite blank_shift_line.
Qed.

(** Indenting the lines of a block by the same spaces and tabs does not
    change what [dedent] makes of it. *)
Lemma dedent_shift_block (p text : str) (also_blank : bool) :
  Forall (fun c => is_space_or_tab c = true) p ->
  dedent (shift_block p also_blank text) = dedent text.
Proof.
  intros Hp. destruct (dedent_spec text) as (margin & Hm & ->).
  rewrite (dedent_margin _ (p ++ margin) (common_margin_shift p text margin also_blank Hp Hm)).
  rewrite (split_nl_shift_block p text also_blank Hp), map_map.
  f_equal. apply map_ext. intros l. unfold dedent_line.
  rewrite blank_shift_line by done.
  destruct (blank l) eqn:Hb; [done |].
  unfold shift_line. rewrite Hb. simpl.
  by rewrite length_app, <- drop_drop, drop_app_length.
Qed.

Lemma normalize_indent_dedent (w : World) (code code' : str) :
  dedent code = dedent code' -> normalize_indent code w = normalize_indent code' w.
Proof. intros H. unfold normalize_indent. by rewrite H. Qed.

(** X3: the depth of the block in the generator's source does not matter.
    Putting the same spaces and tabs before every line of the block (or
    before every line that is not blank) does not change the outcome of
    [normalize_indent]. *)
Theorem normalize_indent_shift (w : World) (code p : str) (also_blank : bool) :
  Forall (fun c => is_space_or_tab c = true) p ->
  normalize_indent (shift_block p also_blank code) w = normalize_indent code w.
Proof.
  intros Hp. by apply normalize_indent_dedent, dedent_shift_block.
Qed.

(** ** Blank lines around the block *)

Lemma join_nl_cons (l : str) (ls : list str) :
  ls <> [] -> join_nl (l :: ls) = l ++ LF :: join_nl ls.
Proof. by destruct ls. Qed.

Lemma join_nl_snoc (ls : list str) (l : str) :
  ls <> [] -> join_nl (ls ++ [l]) = join_nl ls ++ LF :: l.
Proof.
  induction ls as [|l0 ls IH]; [done |]. intros _.
  destruct ls as [|l1 ls'].
  - done.
  - change ((l0 :: l1 :: ls') ++ [l]) with (l0 :: ((l1 :: ls') ++ [l])).
    rewrite join_nl_cons by done. rewrite IH by done.
    rewrite (join_nl_cons l0 (l1 :: ls')) by done.
    by rewrite <- app_assoc.
Qed.

Lemma lstrip_snoc (s : str) (c : char) :
  isspace_char c = true ->
  lstrip (s ++ [c]) = match lstrip s with [] => [] | _ => lstrip s ++ [c] end.
Proof.
  intros Hc. induction s as [|x s IH]; simpl; [by rewrite Hc |].
  destruct (isspace_char x); [done | done].
Qed.

Lemma strip_snoc (s : str) (c : char) :
  isspace_char c = true -> strip (s ++ [c]) = strip s.
Proof.
  intros Hc. unfold strip. rewrite (lstrip_snoc s c Hc).
  destruct (lstrip s) as [|x u]; [done |].
  unfold rstrip. rewrite reverse_snoc. simpl. by rewrite Hc.
Qed.

Lemma strip_cons (s : str) (c : char) :
  isspace_char c = true -> strip (c :: s) = strip s.
Proof. intros Hc. unfold strip. simpl. by rewrite Hc. Qed.

(** Empty lines before and after the lines [ls] are stripped away. *)
Lemma strip_join_empty_lines (a b : nat) (ls : list str) :
  ls <> [] ->
  strip (join_nl (replicate a [] ++ ls ++ replicate b []))
    = strip (join_nl ls).
Proof.
  intros Hne.
  assert (Hb : strip (join_nl (ls ++ replicate b [])) = strip (join_nl ls)).
  { induction b as [|b IH]; [by rewrite app_nil_r |].
    rewrite replicate_S_end, app_assoc, join_nl_snoc.
    - by rewrite strip_snoc.
    - by destruct ls. }
  induction a as [|a IH]; [done |].
  change (replicate (S a) [] ++ ls ++ replicate b [])
    with ([] :: (replicate a [] ++ ls ++ replicate b []) : list str).
  rewrite join_nl_cons.
  - simpl. by rewrite strip_cons.
  - destruct a; [by destruct ls | done].
Qed.

Lemma map_dedent_line_blank (margin : str) (ls : list str) :
  Forall (fun l => blank l = true) ls ->
  map (dedent_line margin) ls = replicate (length ls) [].
Proof.
  induction 1 as [|l ls Hl _ IH]; [done |].
  simpl. rewrite IH. unfold dedent_line. by rewrite Hl.
Qed.

Lemma split_nl_surrounded (before after : list str) (code : str) :
  Forall (fun l => blank l = true) before ->
  Forall (fun l => blank l = true) after ->
  split_nl (join_nl (before ++ split_nl code ++ after))
    = before ++ split_nl code ++ after.
Proof.
  intros Hb Ha. apply split_join_nl.
  - pose proof (split_nl_nonempty code).
    destruct before; [by destruct (split_nl code) | done].
  - rewrite !Forall_app. repeat split.
    + eapply Forall_impl; [exact Hb | apply blank_no_newline].
    + apply split_nl_no_newline.
    + eapply Forall_impl; [exact Ha | apply blank_no_newline].
Qed.

Lemma common_margin_surrounded (before after : list str) (code margin : str) :
  Forall (fun l => blank l = true) before ->
  Forall (fun l => blank l = true) after ->
  common_margin code margin ->
  common_margin (join_nl (before ++ split_nl code ++ after)) margin.
Proof.
  intros Hb Ha (Hsp & Hpre & Hmax).
  unfold common_margin. rewrite (split_nl_surrounded before after code Hb Ha).
  assert (Hin : forall l, l ∈ before ++ split_nl code ++ after ->
                  blank l = false -> l ∈ split_nl code).
  { rewrite Forall_forall in Hb. rewrite Forall_forall in Ha.
    intros l [H | [H | H]%elem_of_app]%elem_of_app Hl; [| done |].
    - rewrite (Hb l H) in Hl. done.
    - rewrite (Ha l H) in Hl. done. }
  split; [done |]. split.
  - intros l Hl Hbl. apply Hpre; auto.
  - intros q Hq (l & Hl & Hbl) Hall. apply Hmax; [done | eauto |].
    intros l0 Hl0 Hb0. apply Hall; [| done].
    apply elem_of_app. right. apply elem_of_app. by left.
Qed.

Lemma strip_dedent_surrounded (before after : list str) (code : str) :
  Forall (fun l => blank l = true) before ->
  Forall (fun l => blank l = true) after ->
  strip (dedent (join_nl (before ++ split_nl code ++ after)))
    = strip (dedent code).
Proof.
  intros Hb Ha. destruct (dedent_spec code) as (margin & Hm & ->).
  rewrite (dedent_margin _ margin (common_margin_surrounded before after code margin Hb Ha Hm)).
  rewrite (split_nl_surrounded before after code Hb Ha).
  rewrite !map_app, (map_dedent_line_blank margin before Hb).
  rewrite (map_dedent_line_blank margin after Ha).
  apply strip_join_empty_lines.
  pose proof (split_nl_nonempty code). by destruct (split_nl code).
Qed.

Lemma normalize_indent_strip_dedent (w : World) (code code' : str) :
  strip (dedent code) = strip (dedent code') ->
  normalize_indent code w = normalize_indent code' w.
Proof. intros H. unfold normalize_indent. by rewrite H. Qed.

(** X4: blank lines around the block do not matter.  Lines of spaces and
    tabs (or empty lines) put before the first and after the last line of a
    block, as a triple-quoted literal has them, do not change the outcome of
    [normalize_indent]. *)
Theorem normalize_indent_surrounded
    (w : World) (before after : list str) (code : str) :
  Forall (fun l => blank l = true) before ->
  Forall (fun l => blank l = true) after ->
  normalize_indent (join_nl (before ++ split_nl code ++ after)) w
    = normalize_indent code w.
Proof.
  intros Hb Ha. by apply normalize_indent_strip_dedent, strip_dedent_surrounded.
Qed.

(** ** Outcomes *)

(** X5: when [normalize_indent] returns and when it raises.  It returns
    exactly when the caller's line is there and holds a character other than
    whitespace; it raises [TypeError] exactly when the caller's frame has no
    source context; it raises [IndexError] exactly when there is no caller's
    frame, the context is an empty list, or the caller's line is
    whitespace only. *)
Theorem normalize_indent_outcome (w : World) (code : str) :
  ((exists out, fst (normalize_indent code w) = Ok out) <->
   (exists line, called_from w line /\
                 exists c, c ∈ line /\ isspace_char c = false)) /\
  (fst (normalize_indent code w) = Raise TypeError <->
   (exists own caller rest,
      stack w = own :: caller :: rest /\ code_context caller = None)) /\
  (fst (normalize_indent code w) = Raise IndexError <->
   ((length (stack w) < 2)%nat \/
    (exists own caller rest,
       stack w = own :: caller :: rest /\ code_context caller = Some []) \/
    (exists line, called_from w line /\
                  forall c, c ∈ line -> isspace_char c = true))).
Proof.
  assert (Hframes : forall own caller rest ctx,
            stack w = own :: caller :: rest -> code_context caller = ctx ->
            forall own' caller' rest', stack w = own' :: caller' :: rest' ->
            code_context caller' = ctx).
  { intros own caller rest ctx Hs Hctx own' caller' rest' Hs'.
    rewrite Hs in Hs'. by injection Hs' as <- <- <-. }
  destruct (stack w) as [|own [|caller rest]] eqn:Hstack.
  1, 2: assert (Hrun : fst (normalize_indent code w) = Raise IndexError)
          by (unfold normalize_indent, mbind, M_bind, gets, getitem;
              by rewrite Hstack);
        rewrite Hrun; unfold called_from; rewrite Hstack;
        (split; [split | split; split]);
        [ by intros [? ?]
        | by intros (? & (? & ? & ? & ? & ? & _) & _)
        | done
        | by intros (? & ? & ? & ? & _)
        | intros _; left; simpl; lia
        | done ].
  specialize (Hframes own caller rest (code_context caller) eq_refl eq_refl).
  destruct (code_context caller) as [[|line more]|] eqn:Hctx.
  - assert (Hrun : fst (normalize_indent code w) = Raise IndexError)
      by (unfold normalize_indent, mbind, M_bind, gets, getitem, subscriptable;
          by rewrite Hstack; simpl; rewrite Hctx).
    rewrite Hrun. unfold called_from. rewrite Hstack.
    split; [split | split; split].
    + by intros [? ?].
    + intros (l & (o & cl & r & m & Hs & Hc) & _).
      by rewrite (Hframes o cl r Hs) in Hc.
    + done.
    + intros (o & cl & r & Hs & Hc). by rewrite (Hframes o cl r Hs) in Hc.
    + intros _. right. left. by exists own, caller, rest.
    + done.
  - assert (Hcall : called_from w line).
    { exists own, caller, rest, more. by rewrite Hstack. }
    assert (Hline : forall l, called_from w l -> l = line).
    { intros l (o & cl & r & m & Hs & Hc). rewrite Hstack in Hs.
      rewrite (Hframes o cl r Hs) in Hc. congruence. }
    rewrite (normalize_indent_run w code line Hcall).
    destruct (lstrip line) as [|x u] eqn:Hl.
    + pose proof (proj1 (lstrip_nil line) Hl) as Hblank.
      rewrite (indent_of_blank line Hblank). simpl.
      split; [split | split; split].
      * by intros [? ?].
      * intros (l & Hc & c & Hin & Hc0). rewrite (Hline l Hc) in Hin.
        rewrite (Hblank c Hin) in Hc0. done.
      * done.
      * intros (o & cl & r & Hs & Hc). by rewrite (Hframes o cl r Hs) in Hc.
      * intros _. right. right. eauto.
      * done.
    + assert (Hx : isspace_char x = false).
      { apply (lstrip_head line). by rewrite Hl. }
      assert (Hin : x ∈ line).
      { destruct (lstrip_split line) as (ws & Hs & _). rewrite Hs, Hl.
        apply elem_of_app. right. by left. }
      rewrite lookup_indent_of, Hl. simpl.
      assert (Hres : exists out,
                fst (if x =? LBRACE
                     then (Ok (drop (indent_of line)
                                 (textwrap_indent (strip (dedent code))
                                    (replicate (indent_of line) SPACE))), w)
                     else (Ok (strip (dedent code)), w)) = Ok out).
      { destruct (x =? LBRACE); eauto. }
      destruct Hres as [out Hres]. rewrite Hres.
      split; [split | split; split].
      * eauto.
      * eauto.
      * done.
      * intros (o & cl & r & Hs & Hc). by rewrite (Hframes o cl r Hs) in Hc.
      * done.
      * intros [H | [(o & cl & r & Hs & Hc) | (l & Hc & Hb)]].
        -- simpl in H. lia.
        -- by rewrite (Hframes o cl r Hs) in Hc.
        -- rewrite (Hline l Hc) in Hb. rewrite (Hb x Hin) in Hx. done.
  - assert (Hrun : fst (normalize_indent code w) = Raise TypeError)
      by (unfold normalize_indent, mbind, M_bind, gets, getitem, subscriptable;
          by rewrite Hstack; simpl; rewrite Hctx).
    rewrite Hrun. unfold called_from. rewrite Hstack.
    split; [split | split; split].
    + by intros [? ?].
    + intros (l & (o & cl & r & m & Hs & Hc) & _).
      by rewrite (Hframes o cl r Hs) in Hc.
    + intros _. by exists own, caller, rest.
    + done.
    + done.
    + intros [H | [(o & cl & r & Hs & Hc) | (l & (o & cl & r & m & Hs & Hc) & _)]].
      * simpl in H. lia.
      * by rewrite (Hframes o cl r Hs) in Hc.
      * by rewrite (Hframes o cl r Hs) in Hc.
Qed.

(** ** Line ends of the preamble *)

Lemma universal_newlines_unfold (c : char) (s : str) :
  universal_newlines (c :: s) =
    if c =? CR then
      LF :: match s with
            | d :: s'' =>
                if d =? LF then universal_newlines s'' else universal_newlines s
            | [] => []
            end
    else c :: universal_newlines s.
Proof. by destruct s. Qed.

Lemma universal_newlines_no_cr (s : str) : CR ∉ universal_newlines s.
Proof.
  assert (H : forall n (s : str), (length s < n)%nat -> CR ∉ universal_newlines s).
  { clear s. induction n as [|n IH]; intros s Hn; [lia |].
    destruct s as [|c s]; [apply not_elem_of_nil |]. simpl in Hn.
    rewrite universal_newlines_unfold.
    destruct (c =? CR) eqn:Ec.
    - apply not_elem_of_cons. split; [done |].
      destruct s as [|d s]; [apply not_elem_of_nil |]. simpl in Hn.
      destruct (d =? LF); apply IH; simpl; lia.
    - apply N.eqb_neq in Ec. apply not_elem_of_cons. split; [done |].
      apply IH. lia. }
  apply (H (S (length s))). lia.
Qed.

Lemma universal_newlines_to_crlf (s : str) :
  CR ∉ s -> universal_newlines (to_crlf s) = s.
Proof.
  induction s as [|c s IH]; [done |].
  intros [Hc Hs]%not_elem_of_cons. simpl.
  destruct (c =? LF) eqn:Ec.
  - apply N.eqb_eq in Ec. subst c.
    rewrite universal_newlines_unfold. simpl. by rewrite IH.
  - rewrite universal_newlines_unfold.
    destruct (c =? CR) eqn:E; [apply N.eqb_eq in E; congruence |].
    by rewrite IH.
Qed.

(** X6: no carriage return comes out of [get_preamble]: the lines of the
    text it returns end in [\n] only, however the file's lines end. *)
Theorem get_preamble_no_cr (w : World) (text : str) :
  fst (get_preamble w) = Ok text -> CR ∉ text.
Proof.
  rewrite get_preamble_run.
  destruct (fs w !! preamble_path w) as [[bytes| |]|]; try done.
  destruct (locale_decode w bytes) as [s|]; [| done].
  simpl. intros [= <-]. apply universal_newlines_no_cr.
Qed.

(** X7: the preamble is the same for a Unix and a Windows checkout: a file
    that decodes to [text] (without carriage returns) and a file that decodes
    to [text] with [\r\n] line ends are both read as [text]. *)
Theorem get_preamble_line_ends
    (w1 w2 : World) (bytes1 bytes2 : list Byte.byte) (text : str) :
  CR ∉ text ->
  fs w1 !! preamble_path w1 = Some (File bytes1) ->
  locale_decode w1 bytes1 = Some text ->
  fs w2 !! preamble_path w2 = Some (File bytes2) ->
  locale_decode w2 bytes2 = Some (to_crlf text) ->
  get_preamble w1 = (Ok text, w1) /\ get_preamble w2 = (Ok text, w2).
Proof.
  intros Hcr Hf1 Hd1 Hf2 Hd2. rewrite !get_preamble_run.
  rewrite Hf1, Hd1, Hf2, Hd2.
  by rewrite universal_newlines_id, universal_newlines_to_crlf.
Qed.

(** ** The empty result *)

Lemma non_whitespace_nil (s : str) :
  non_whitespace s = [] <-> forall c, c ∈ s -> isspace_char c = true.
Proof.
  induction s as [|x s IH]; simpl.
  - split; [intros _ c Hc; by apply elem_of_nil in Hc | done].
  - destruct (isspace_char x) eqn:Hx; simpl.
    + rewrite IH. split.
      * intros H c [-> | Hc]%elem_of_cons; auto.
      * intros H c Hc. apply H. by right.
    + split; [done |]. intros H. rewrite H in Hx; [done | by left].
Qed.

Lemma strip_nil (s : str) :
  strip s = [] <-> forall c, c ∈ s -> isspace_char c = true.
Proof.
  split.
  - intros H. apply non_whitespace_nil.
    by rewrite <- non_whitespace_strip, H.
  - intros H. unfold strip. by rewrite (proj2 (lstrip_nil s) H).
Qed.

(** X8: the empty result.  [normalize_indent] returns the empty string for
    the blocks that hold nothing but whitespace, and for no other block. *)
Theorem normalize_indent_empty (w : World) (code out : str) :
  fst (normalize_indent code w) = Ok out ->
  (out = [] <-> forall c, c ∈ code -> isspace_char c = true).
Proof.
  intros Hout.
  destruct (normalize_indent_returns w code out Hout) as [call_line Hcall].
  rewrite (normalize_indent_run w code call_line Hcall) in Hout.
  destruct (call_line !! indent_of call_line) as [c|]; [| done].
  split.
  - intros ->. apply non_whitespace_nil.
    rewrite <- non_whitespace_dedent, <- non_whitespace_strip.
    destruct (c =? LBRACE); simpl in Hout; injection Hout as Hout.
    + rewrite <- (non_whitespace_drop_indent _ (indent_of call_line))
        by apply strip_head.
      by rewrite Hout.
    + by rewrite Hout.
  - intros Hcode.
    assert (Hblock : strip (dedent code) = []).
    { apply strip_nil, non_whitespace_nil.
      rewrite non_whitespace_dedent. by apply non_whitespace_nil. }
    rewrite Hblock in Hout.
    destruct (c =? LBRACE); simpl in Hout; injection Hout as <-; [| done].
    unfold textwrap_indent. simpl. apply drop_nil.
Qed.

(** ** Lengths *)

Lemma length_join_nl (ls ls' : list str) :
  Forall2 (fun l l' => (length l <= length l')%nat) ls ls' ->
  (length (join_nl ls) <= length (join_nl ls'))%nat.
Proof.
  induction 1 as [|l l' ls ls' Hl Hls IH]; [done |].
  destruct Hls as [|k k' ks ks' Hk Hks]; [done |].
  change (join_nl (l :: k :: ks)) with (l ++ LF :: join_nl (k :: ks)).
  change (join_nl (l' :: k' :: ks')) with (l' ++ LF :: join_nl (k' :: ks')).
  rewrite !length_app. simpl in *. lia.
Qed.

Lemma length_dedent (text : str) : (length (dedent text) <= length text)%nat.
Proof.
  destruct (dedent_spec text) as (margin & _ & ->).
  rewrite <- (join_split_nl text) at 2. apply length_join_nl.
  induction (split_nl text) as [|l ls IH]; constructor; [| done].
  unfold dedent_line. destruct (blank l); simpl; [lia |].
  rewrite length_drop. lia.
Qed.

Lemma length_lstrip (s : str) : (length (lstrip s) <= length s)%nat.
Proof.
  destruct (lstrip_split s) as (ws & Hs & _). rewrite Hs at 2.
  rewrite length_app. lia.
Qed.

Lemma length_strip (s : str) : (length (strip s) <= length s)%nat.
Proof.
  unfold strip, rstrip. rewrite length_reverse.
  etrans; [apply length_lstrip |]. rewrite length_reverse. apply length_lstrip.
Qed.

(** X9: from a plain call site the result is never longer than the
    block. *)
Theorem normalize_indent_plain_length
    (w : World) (code out line : str) (c : char) :
  called_from w line -> line !! indent_of line = Some c -> c <> LBRACE ->
  fst (normalize_indent code w) = Ok out ->
  (length out <= length code)%nat.
Proof.
  intros Hcall Hc Hne%N.eqb_neq Hout.
  rewrite (normalize_indent_run w code line Hcall), Hc, Hne in Hout.
  injection Hout as <-.
  etrans; [apply length_strip | apply length_dedent].
Qed.

(** ** Instances *)

Lemma letter_t_not_brace : 116 <> LBRACE.
Proof. discriminate. Qed.

Lemma spaces_4 : Forall (fun c => is_space_or_tab c = true) (py "    ").
Proof. repeat constructor. Qed.

Lemma normalize_indent_keeps_text_witness :
  fst (normalize_indent block_literal (example_world interpolated_call ∅))
    = Ok (py "a" ++ [LF] ++ py "      b") /\
  non_whitespace (py "a" ++ [LF] ++ py "      b") = non_whitespace block_literal.
Proof.
  split; [reflexivity |].
  exact (normalize_indent_keeps_text (example_world interpolated_call ∅)
           block_literal (py "a" ++ [LF] ++ py "      b") eq_refl).
Defined.

Lemma normalize_indent_idempotent_witness :
  fst (normalize_indent block_literal (example_world plain_call ∅))
    = Ok (py "a" ++ [LF] ++ py "  b") /\
  normalize_indent (py "a" ++ [LF] ++ py "  b") (example_world toplevel_call ∅)
    = (Ok (py "a" ++ [LF] ++ py "  b"), example_world toplevel_call ∅).
Proof.
  split; [reflexivity |].
  exact (normalize_indent_idempotent
           (example_world plain_call ∅) (example_world toplevel_call ∅)
           block_literal (py "a" ++ [LF] ++ py "  b")
           plain_call toplevel_call 116 116
           (called_from_example _ _) eq_refl letter_t_not_brace
           (called_from_example _ _) eq_refl letter_t_not_brace eq_refl).
Defined.

Lemma normalize_indent_shift_witness :
  Forall (fun c => is_space_or_tab c = true) (py "    ") /\
  normalize_indent (shift_block (py "    ") false block_def_f)
      (example_world interpolated_call ∅)
    = normalize_indent block_def_f (example_world interpolated_call ∅).
Proof.
  split; [exact spaces_4 |].
  exact (normalize_indent_shift (example_world interpolated_call ∅)
           block_def_f (py "    ") false spaces_4).
Defined.

Lemma normalize_indent_surrounded_witness :
  join_nl ([[]] ++ split_nl (py "    a" ++ [LF] ++ py "      b") ++ [py "    "])
    = block_literal /\
  normalize_indent block_literal (example_world plain_call ∅)
    = normalize_indent (py "    a" ++ [LF] ++ py "      b")
        (example_world plain_call ∅).
Proof.
  split; [reflexivity |].
  exact (normalize_indent_surrounded (example_world plain_call ∅)
           [[]] [py "    "] (py "    a" ++ [LF] ++ py "      b")
           ltac:(by repeat constructor) ltac:(by repeat constructor)).
Defined.

Lemma get_preamble_no_cr_witness :
  fst (get_preamble (example_world plain_call crlf_files))
    = Ok (py "a" ++ [LF] ++ py "b") /\
  CR ∉ py "a" ++ [LF] ++ py "b".
Proof.
  split; [reflexivity |].
  exact (get_preamble_no_cr (example_world plain_call crlf_files)
           (py "a" ++ [LF] ++ py "b") eq_refl).
Defined.

Lemma get_preamble_line_ends_witness :
  get_preamble (example_world plain_call lf_files)
    = (Ok (py "a" ++ [LF] ++ py "b"), example_world plain_call lf_files) /\
  get_preamble (example_world plain_call crlf_files)
    = (Ok (py "a" ++ [LF] ++ py "b"), example_world plain_call crlf_files).
Proof.
  apply (get_preamble_line_ends
           (example_world plain_call lf_files)
           (example_world plain_call crlf_files)
           lf_bytes crlf_bytes (py "a" ++ [LF] ++ py "b")).
  - apply (bool_decide_unpack _). by vm_compute.
  - reflexivity.
  - reflexivity.
  - reflexivity.
  - reflexivity.
Defined.

Lemma normalize_indent_empty_witness :
  fst (normalize_indent block_spaces (example_world interpolated_call ∅)) = Ok [] /\
  (([] : str) = [] <-> forall c, c ∈ block_spaces -> isspace_char c = true).
Proof.
  split; [reflexivity |].
  exact (normalize_indent_empty (example_world interpolated_call ∅)
           block_spaces [] eq_refl).
Defined.

Lemma normalize_indent_plain_length_witness :
  fst (normalize_indent block_literal (example_world plain_call ∅))
    = Ok (py "a" ++ [LF] ++ py "  b") /\
  (length (py "a" ++ [LF] ++ py "  b") <= length block_literal)%nat.
Proof.
  split; [reflexivity |].
  exact (normalize_indent_plain_length (example_world plain_call ∅)
           block_literal (py "a" ++ [LF] ++ py "  b") plain_call 116
           (called_from_example _ _) eq_refl letter_t_not_brace eq_refl).
Defined.
